(** * proxperfect: a fan-out reverse proxy (proxperfect.go)

    A shallow embedding of the request-dispatch engine of proxperfect.go
    and its verification.

    Definitions:
    - machine integers, the weighted semaphore, the configuration and the
      process state;
    - the buffer pool ([proxyBufferPool], module [BufferPool]);
    - start-up: [ParseArguments], [InitProxyState], [main], and how the
      process ends ([main_ListenAndServe]);
    - the two request handlers, [ProxyRequestHandler] and
      [RedirectHandler], as programs of a state monad with panics and
      blocking calls, and their sequential execution;
    - the concurrent execution of proxy handlers: tasks with a program
      counter, the step function [task_step], the reachable states, the
      steps as a relation ([step]), and the invariants of admission
      control.

    Facts: start-up, the dispatch ticket and round-robin selection,
    redirect mode, the admission cap under every interleaving, admission
    control switched off and on, permits that are not given back, the
    buffer pool, and the agreement of the sequential and the concurrent
    view of the handler.

    Conventions.
    - Go's [int] and [uint64] values are integers [Z]; the [uint32] ticket
      is a [Z] whose wrap-around at [2^32] is written out ([uint32]).
    - [config] and [proxyState] are process-wide variables in the source.
      [config] is written by [ParseArguments] only and is passed around as
      a [Config]; [proxyState] lives in the [World].
    - [proxyState.connLimiters] holds pointers: a limiter is an address in
      the heap of semaphores of the [World].
    - Library calls ([url.Parse], [Getrlimit], [proxy.ServeHTTP],
      [http.Redirect], the semaphore, [sync.Pool]) are modelled by what
      the program can observe of them; what the environment decides (a
      parse result, how a forward ends, which pooled entry is handed out)
      is a parameter.
    - Output on stdout ([fmt.Printf]/[fmt.Println]) changes no state the
      handlers read and is left out. *)

From stdpp Require Import base numbers list strings.
From Stdlib Require Import ZArith Lia Ascii.

Local Open Scope Z_scope.

(* ===================================================================== *)
(** * Machine integers *)

Definition uint32_modulus : Z := 2 ^ 32.

(** Conversion to [uint32]: truncation to the low 32 bits. *)
Definition uint32 (z : Z) : Z := z mod uint32_modulus.

(** [atomic.AddUint32(addr, delta)]: the new value, wrapped at [2^32]. *)
Definition AddUint32 (old delta : Z) : Z := uint32 (old + delta).

(* ===================================================================== *)
(** * Results of a call: a value, a panic, or a call that never returns *)

Inductive res (A : Type) : Type :=
| Ret (a : A)
| Panic
| Blocked.
Arguments Ret {A} a.
Arguments Panic {A}.
Arguments Blocked {A}.

(* ===================================================================== *)
(** * golang.org/x/sync/semaphore

    The weighted semaphore of the library, by its documented contract: a
    semaphore of [size] n holds a count [cur] of the weight handed out;
    [Acquire(ctx, n)] with a context that is never cancelled returns once
    it has added [n] to [cur], which it can do only while
    [size - cur >= n], and blocks until then; [Release(n)] subtracts [n]
    and panics when more is released than is held. [NewWeighted] does not
    validate its argument. The order in which waiting callers are served
    is left open: any waiting caller may go on once the count allows it. *)

Module semaphore.

Record Weighted : Type := mkWeighted { size : Z; cur : Z }.

Definition NewWeighted (n : Z) : Weighted := {| size := n; cur := 0 |}.

(** One attempt of [Acquire]: [Some] the semaphore after the acquisition
    when it can be granted now, [None] when the caller has to wait. *)
Definition Acquire (s : Weighted) (n : Z) : option Weighted :=
  if decide (n <= size s - cur s)
  then Some {| size := size s; cur := cur s + n |}
  else None.

(** [Release]: [None] is the panic "released more than held", which the
    library raises after the subtraction. *)
Definition Release (s : Weighted) (n : Z) : option Weighted :=
  if decide (cur s - n < 0)
  then None
  else Some {| size := size s; cur := cur s - n |}.

End semaphore.

(* ===================================================================== *)
(** * Configuration and process state *)

Record Config : Type := mkConfig {
  beVerbose : bool;
  showVersion : bool;
  listenPort : Z;
  proxyStrings : list string;
  poolBufSize : Z;
  numConnsPerServer : Z;   (* 0 disables this limit *)
  redirectCode : Z;        (* 0 disables redirect *)
  fdLimit : Z              (* 0 disables attempt to change *)
}.

(** The command line after [flag.Parse]: the flag values and the
    remaining arguments [flag.Args()]. *)
Record Flags : Type := mkFlags {
  flag_version : bool;
  flag_verbose : bool;
  flag_port : Z;
  flag_bufsize : Z;
  flag_maxconns : Z;
  flag_redirect : Z;
  flag_fdlimit : Z;
  flag_Args : list string
}.

Record Rlimit : Type := mkRlimit { Cur : Z; Max : Z }.

(** An inbound request, as far as the handlers look at it: [r.Method] and
    the string [r.URL.String()]. *)
Record Request : Type := mkRequest { Method : string; URL_String : string }.

(** A [httputil.ReverseProxy] as [InitProxyState] sets it up. [BufferPool]
    is [None] for Go's nil and [Some i] for the pool allocated for the
    proxy with index [i]. *)
Record ReverseProxy (URL : Type) : Type := mkReverseProxy {
  target : URL;
  FlushInterval : Z;
  BufferPool : option nat
}.
Arguments mkReverseProxy {URL} _ _ _.
Arguments target {URL} _.
Arguments FlushInterval {URL} _.
Arguments BufferPool {URL} _.

Record ProxyState (URL : Type) : Type := mkProxyState {
  proxies : list (ReverseProxy URL);
  connLimiters : list nat;      (* per-proxy limit: addresses of semaphores *)
  requestNum : Z
}.
Arguments mkProxyState {URL} _ _ _.
Arguments proxies {URL} _.
Arguments connLimiters {URL} _.
Arguments requestNum {URL} _.

(** What a handler does to the outside, in program order. *)
Inductive event : Type :=
| EvAcquire (limiter : nat)
| EvServeHTTP (proxyIdx : nat) (r : Request)
| EvRelease (limiter : nat)
| EvRedirect (url : string) (code : Z).

Record World (URL : Type) : Type := mkWorld {
  proxyState : ProxyState URL;
  semaphores : list semaphore.Weighted;   (* heap of limiter objects *)
  trace : list event
}.
Arguments mkWorld {URL} _ _ _.
Arguments proxyState {URL} _.
Arguments semaphores {URL} _.
Arguments trace {URL} _.

(** How a call of [proxy.ServeHTTP] ends. [httputil.ReverseProxy] answers a
    backend that cannot be reached with a gateway error and returns; when
    copying the response body fails midway (the client went away, the
    backend broke the connection) it aborts the handler with
    [panic(http.ErrAbortHandler)]. How long the call takes is not
    bounded: in the concurrent system below a forward that is still
    waiting for its backend is a task inside [proxy.ServeHTTP] whose next
    step has not been taken, and no schedule has to take it. *)
Inductive serve_outcome : Type := ServeReturns | ServePanics.

(* ===================================================================== *)
(** * The buffer pool

    [proxyBufferPool] is a [httputil.BufferPool] backed by a [sync.Pool].
    A [sync.Pool] is a bag of the values put into it; [Get] hands out
    some value of the bag and removes it, or reports nil: it may treat the
    pool as empty, and the runtime may drop entries at any time. Which of
    these happens is not the program's choice: it is the argument [pick]
    of [sync_Pool_Get] and the operation [OpDrop] of a history. *)

Module BufferPool.

Definition buffer : Type := list Byte.byte.

Record proxyBufferPool : Type := mkPool {
  pool : list buffer;      (* contents of the sync.Pool *)
  bufAllocNum : Z
}.

Definition NewProxyBufferPool : proxyBufferPool :=
  {| pool := []; bufAllocNum := 0 |}.

(** [sync.Pool.Get]: [pick = Some k] takes the entry at position [k],
    [None] (or a position that is not there) reports nil. *)
Definition sync_Pool_Get (pick : option nat) (p : list buffer)
    : option buffer * list buffer :=
  match pick with
  | None => (None, p)
  | Some k =>
    match p !! k with
    | Some buf => (Some buf, delete k p)
    | None => (None, p)
    end
  end.

Definition sync_Pool_Put (buf : buffer) (p : list buffer) : list buffer :=
  buf :: p.

(** [make([]byte, n)]: a zeroed slice of length [n]; a negative length is
    a run-time panic ([None]). *)
Definition make_bytes (n : Z) : option buffer :=
  if decide (n < 0) then None else Some (replicate (Z.to_nat n) Byte.x00).

(** [Get]: [None] is a panic. *)
Definition Get (cfg : Config) (pick : option nat) (bufPool : proxyBufferPool)
    : option (buffer * proxyBufferPool) :=
  match sync_Pool_Get pick (pool bufPool) with
  | (None, p) =>
    let bufPool' :=
      if beVerbose cfg
      then {| pool := p; bufAllocNum := AddUint32 (bufAllocNum bufPool) 1 |}
      else {| pool := p; bufAllocNum := bufAllocNum bufPool |} in
    match make_bytes (poolBufSize cfg) with
    | None => None
    | Some buf => Some (buf, bufPool')
    end
  | (Some buf, p) =>
    Some (buf, {| pool := p; bufAllocNum := bufAllocNum bufPool |})
  end.

Definition Put (buf : buffer) (bufPool : proxyBufferPool) : proxyBufferPool :=
  {| pool := sync_Pool_Put buf (pool bufPool);
     bufAllocNum := bufAllocNum bufPool |}.

(** A history of calls on one pool. [OpDrop k] is the runtime discarding
    the entry at position [k]. *)
Inductive op : Type :=
| OpGet (pick : option nat)
| OpPut (buf : buffer)
| OpDrop (k : nat).

(** Runs a history; the result lists what each [Get] returned, in order.
    [None] is a panic somewhere in the history. *)
Fixpoint run (cfg : Config) (h : list op) (bufPool : proxyBufferPool)
    : option (list buffer * proxyBufferPool) :=
  match h with
  | [] => Some ([], bufPool)
  | OpGet pick :: h' =>
    match Get cfg pick bufPool with
    | None => None
    | Some (buf, bufPool') =>
      match run cfg h' bufPool' with
      | None => None
      | Some (bufs, bufPool'') => Some (buf :: bufs, bufPool'')
      end
    end
  | OpPut buf :: h' => run cfg h' (Put buf bufPool)
  | OpDrop k :: h' =>
    run cfg h' {| pool := delete k (pool bufPool);
                  bufAllocNum := bufAllocNum bufPool |}
  end.

(** A buffer as long as the configured size, or longer. *)
Definition full_size (cfg : Config) (buf : buffer) : Prop :=
  poolBufSize cfg <= Z.of_nat (length buf).

(** A call that hands the pool no buffer shorter than the configured
    size. *)
Definition put_full_size (cfg : Config) (o : op) : Prop :=
  match o with
  | OpPut buf => full_size cfg buf
  | _ => True
  end.

(** The buffers a history hands to the pool, in order. *)
Fixpoint puts (h : list op) : list buffer :=
  match h with
  | [] => []
  | OpPut buf :: h' => buf :: puts h'
  | _ :: h' => puts h'
  end.

End BufferPool.

(* ===================================================================== *)
(** * The program *)

Section Proxperfect.

(** [url.Parse] of the Go library: [None] is a parse error. *)
Context {URL : Type}.
Variable url_Parse : string -> option URL.

(** What [syscall.Getrlimit(RLIMIT_NOFILE)] reports to this process. *)
Variable GetOpenFilesLimit : Rlimit.

(** ** Start-up *)

(** [SetOpenFilesLimit], as far as it writes [config]: a limit at or above
    the hard maximum is clamped to it. The [Setrlimit] call that follows
    changes the process, not the program's variables. *)
Definition SetOpenFilesLimit (cfg : Config) : Config :=
  let rlimit := GetOpenFilesLimit in
  if decide (Max rlimit <= fdLimit cfg)
  then {| beVerbose := beVerbose cfg; showVersion := showVersion cfg;
          listenPort := listenPort cfg; proxyStrings := proxyStrings cfg;
          poolBufSize := poolBufSize cfg;
          numConnsPerServer := numConnsPerServer cfg;
          redirectCode := redirectCode cfg; fdLimit := Max rlimit |}
  else cfg.

(** [ParseArguments]: [inl code] is [os.Exit(code)], [inr cfg] the
    configuration the function leaves in [config]. *)
Definition ParseArguments (f : Flags) : Z + Config :=
  let cfg := {| beVerbose := flag_verbose f; showVersion := flag_version f;
                listenPort := flag_port f; proxyStrings := flag_Args f;
                poolBufSize := flag_bufsize f;
                numConnsPerServer := flag_maxconns f;
                redirectCode := flag_redirect f; fdLimit := flag_fdlimit f |} in
  if showVersion cfg then inl 0
  else if decide (length (flag_Args f) = 0%nat) then inl 1
  else if decide (fdLimit cfg <> 0) then inr (SetOpenFilesLimit cfg)
  else inr cfg.

Definition NewSingleHostReverseProxy (u : URL) : ReverseProxy URL :=
  {| target := u; FlushInterval := 0; BufferPool := None |}.

(** [NewProxy]: [None] is the error return. *)
Definition NewProxy (targetHost : string) : option (ReverseProxy URL) :=
  match url_Parse targetHost with
  | None => None
  | Some u => Some (NewSingleHostReverseProxy u)
  end.

(** The body of the loop of [InitProxyState] for one argument; [None] is
    [panic(err)]. The index [i] of the loop is the number of proxies added
    so far. *)
Definition InitProxyState_body (cfg : Config) (proxyStr : string)
    (w : World URL) : option (World URL) :=
  match NewProxy proxyStr with
  | None => None
  | Some proxy =>
    let st := proxyState w in
    let i := length (proxies st) in
    let proxy :=
      {| target := target proxy;
         FlushInterval := -1;   (* negative value means "flush immediately" *)
         BufferPool := if decide (0 < poolBufSize cfg) then Some i
                       else BufferPool proxy |} in
    let proxies' := proxies st ++ [proxy] in
    if decide (numConnsPerServer cfg <> 0) then
      let sem := semaphore.NewWeighted (numConnsPerServer cfg) in
      let addr := length (semaphores w) in
      Some {| proxyState := {| proxies := proxies';
                               connLimiters := connLimiters st ++ [addr];
                               requestNum := requestNum st |};
              semaphores := semaphores w ++ [sem];
              trace := trace w |}
    else
      Some {| proxyState := {| proxies := proxies';
                               connLimiters := connLimiters st;
                               requestNum := requestNum st |};
              semaphores := semaphores w;
              trace := trace w |}
  end.

Fixpoint InitProxyState_loop (cfg : Config) (args : list string)
    (w : World URL) : option (World URL) :=
  match args with
  | [] => Some w
  | proxyStr :: rest =>
    match InitProxyState_body cfg proxyStr w with
    | None => None
    | Some w' => InitProxyState_loop cfg rest w'
    end
  end.

(** [InitProxyState]: resets the ticket and adds one proxy (and, with a
    nonzero [numConnsPerServer], one limiter) per argument. *)
Definition InitProxyState (cfg : Config) (args : list string)
    (w : World URL) : option (World URL) :=
  InitProxyState_loop cfg args
    {| proxyState := {| proxies := proxies (proxyState w);
                        connLimiters := connLimiters (proxyState w);
                        requestNum := 0 |};
       semaphores := semaphores w;
       trace := trace w |}.

(** The process before [main] runs: every variable has its zero value. *)
Definition zero_World : World URL :=
  {| proxyState := {| proxies := []; connLimiters := []; requestNum := 0 |};
     semaphores := [];
     trace := [] |}.

(** The handler [main] registers for "/". *)
Inductive handler : Type := ProxyH | RedirectH.

Inductive startup : Type :=
| Exited (code : Z)               (* os.Exit before serving *)
| StartupPanic                    (* panic in InitProxyState *)
| Serving (h : handler) (cfg : Config) (w : World URL).

(** [main] up to the call of [http.ListenAndServe]. *)
Definition main (f : Flags) : startup :=
  match ParseArguments f with
  | inl code => Exited code
  | inr cfg =>
    match InitProxyState cfg (flag_Args f) zero_World with
    | None => StartupPanic
    | Some w =>
      if decide (redirectCode cfg = 0)
      then Serving ProxyH cfg w      (* handle requests through proxy *)
      else Serving RedirectH cfg w   (* handle requests through redirector *)
    end
  end.

(** How the call [http.ListenAndServe(":" + port, nil)] of line 283 ends.
    The function returns only with an error: at once when it cannot
    listen on the port, later when accepting connections fails for good.
    As long as it does not return, the process serves. Which of the two
    happens is decided by the environment of the process. *)
Inductive listen_outcome : Type :=
| ListenServes                    (* the call never returns *)
| ListenReturns.                  (* the call returns its error *)

(** How the process ends. *)
Inductive process_end : Type :=
| Exit (code : Z)                 (* os.Exit, also the one of log.Fatal *)
| InitPanic                       (* the panic of InitProxyState unwinds main *)
| ServesOn (h : handler) (cfg : Config) (w : World URL).
                                  (* no end: requests are served *)

(** [main] with its last line: [log.Fatal] of what [http.ListenAndServe]
    returns prints the error and exits with status 1. [ListenAndServe]
    answers for the configured port. *)
Definition main_ListenAndServe (ListenAndServe : Z -> listen_outcome)
    (f : Flags) : process_end :=
  match main f with
  | Exited code => Exit code
  | StartupPanic => InitPanic
  | Serving h cfg w =>
    match ListenAndServe (listenPort cfg) with
    | ListenReturns => Exit 1
    | ListenServes => ServesOn h cfg w
    end
  end.

(** ** The handler monad: state passing over the [World], with panics and
    calls that do not return *)

Definition M (A : Type) : Type := World URL -> World URL * res A.

Definition ret {A} (a : A) : M A := fun w => (w, Ret a).
Definition panic {A} : M A := fun w => (w, Panic).

Definition bind {A B} (m : M A) (k : A -> M B) : M B := fun w =>
  match m w with
  | (w', Ret a) => k a w'
  | (w', Panic) => (w', Panic)
  | (w', Blocked) => (w', Blocked)
  end.

Notation "'let*' x ':=' m 'in' k" := (bind m (fun x => k))
  (at level 10, x name, m at level 100, k at level 200).

Definition emit (e : event) : M unit := fun w =>
  ({| proxyState := proxyState w; semaphores := semaphores w;
      trace := trace w ++ [e] |}, Ret tt).

(** The world with [proxyState.requestNum] set to [v]. *)
Definition with_requestNum (v : Z) (w : World URL) : World URL :=
  {| proxyState := {| proxies := proxies (proxyState w);
                      connLimiters := connLimiters (proxyState w);
                      requestNum := v |};
     semaphores := semaphores w; trace := trace w |}.

(** [atomic.AddUint32(&proxyState.requestNum, delta)] *)
Definition atomic_AddUint32_requestNum (delta : Z) : M Z := fun w =>
  let new := AddUint32 (requestNum (proxyState w)) delta in
  (with_requestNum new w, Ret new).

Definition read_proxyState : M (ProxyState URL) := fun w =>
  (w, Ret (proxyState w)).

(** [a % n] on unsigned integers; a zero divisor is a run-time panic. *)
Definition rem_uint32 (a n : Z) : M Z :=
  if decide (n = 0) then panic else ret (a mod n).

(** [l[i]] for an unsigned index; out of range is a run-time panic. *)
Definition index {A} (l : list A) (i : Z) : M A :=
  match l !! Z.to_nat i with
  | Some x => ret x
  | None => panic
  end.

(** [limiter.Acquire(ctx, n)] with the background context. *)
Definition limiter_Acquire (limiter : nat) (n : Z) : M unit := fun w =>
  match semaphores w !! limiter with
  | None => (w, Panic)
  | Some s =>
    match semaphore.Acquire s n with
    | None => (w, Blocked)
    | Some s' =>
      ({| proxyState := proxyState w;
          semaphores := <[limiter := s']> (semaphores w);
          trace := trace w ++ [EvAcquire limiter] |}, Ret tt)
    end
  end.

(** [limiter.Release(n)]: the library subtracts [n] from the count and
    then panics if the count has become negative, so a release of more
    than is held leaves the semaphore with a negative count. *)
Definition limiter_Release (limiter : nat) (n : Z) : M unit := fun w =>
  match semaphores w !! limiter with
  | None => (w, Panic)
  | Some s =>
    match semaphore.Release s n with
    | None =>
      ({| proxyState := proxyState w;
          semaphores :=
            <[limiter := {| semaphore.size := semaphore.size s;
                            semaphore.cur := semaphore.cur s - n |}]>
              (semaphores w);
          trace := trace w |}, Panic)
    | Some s' =>
      ({| proxyState := proxyState w;
          semaphores := <[limiter := s']> (semaphores w);
          trace := trace w ++ [EvRelease limiter] |}, Ret tt)
    end
  end.

(** Lines 224-225 and 254-255, the same in both handlers: take a ticket
    and derive the backend index from it. *)
Definition SelectBackend : M (Z * Z) :=
  let* currentRequestNum := atomic_AddUint32_requestNum 1 in
  let* st := read_proxyState in
  let* proxyIdx :=
    rem_uint32 currentRequestNum (uint32 (Z.of_nat (length (proxies st)))) in
  ret (currentRequestNum, proxyIdx).

(** Line 226: [proxyState.proxies[proxyIdx]] *)
Definition SelectProxy (proxyIdx : Z) : M (ReverseProxy URL) :=
  let* st := read_proxyState in
  index (proxies st) proxyIdx.

(** Lines 227-234: limit concurrent connections for this proxy. The
    result is the local variable [limiter] ([None] is nil). *)
Definition AcquireLimiter (cfg : Config) (proxyIdx : Z) : M (option nat) :=
  if decide (numConnsPerServer cfg <> 0) then
    let* st := read_proxyState in
    let* limiter := index (connLimiters st) proxyIdx in
    let* _ := limiter_Acquire limiter 1 in
    ret (Some limiter)
  else ret None.

(** Line 240, the call: the forward to backend [proxyIdx] starts. *)
Definition ServeHTTP_call (proxyIdx : Z) (r : Request) : M unit :=
  emit (EvServeHTTP (Z.to_nat proxyIdx) r).

(** Line 240, the end of the call. *)
Definition ServeHTTP_end (o : serve_outcome) : M unit :=
  match o with
  | ServeReturns => ret tt
  | ServePanics => panic
  end.

(** Lines 246-248 *)
Definition ReleaseLimiter (cfg : Config) (limiter : option nat) : M unit :=
  if decide (numConnsPerServer cfg <> 0) then
    match limiter with
    | Some l => limiter_Release l 1
    | None => panic                    (* nil pointer dereference *)
    end
  else ret tt.

(** [ProxyRequestHandler]: the handler run from its entry to its end with
    no other handler running in between; [o] says how the forward ends. *)
Definition ProxyRequestHandler (cfg : Config) (o : serve_outcome)
    (r : Request) : M unit :=
  let* ticket := SelectBackend in
  let '(currentRequestNum, proxyIdx) := ticket in
  let* proxy := SelectProxy proxyIdx in
  let* limiter := AcquireLimiter cfg proxyIdx in
  let* _ := ServeHTTP_call proxyIdx r in
  let* _ := ServeHTTP_end o in
  ReleaseLimiter cfg limiter.

(** [http.Redirect(w, r, url, code)] of net/http. The function sets the
    [Location] header for the target [url] ([Redirect_Location] below)
    and calls [w.WriteHeader(code)]. [WriteHeader] checks the code first
    and panics ("invalid WriteHeader code") when it does not have three
    digits, that is when it is below 100 or above 999: nothing is sent
    then. Otherwise the header of the response goes out with the status
    [code], and [Redirect] returns. [EvRedirect url code] is the reply of
    a call that got that far. *)
Definition http_Redirect (url : string) (code : Z) : M unit :=
  if decide (code < 100 \/ 999 < code) then panic
  else emit (EvRedirect url code).

(** A hexadecimal digit, in lower case. *)
Definition hex_digit (n : N) : ascii :=
  match n with
  | 0 => "0" | 1 => "1" | 2 => "2" | 3 => "3" | 4 => "4" | 5 => "5"
  | 6 => "6" | 7 => "7" | 8 => "8" | 9 => "9" | 10 => "a" | 11 => "b"
  | 12 => "c" | 13 => "d" | 14 => "e" | _ => "f"
  end%N%char.

(** [hexEscapeNonASCII] of net/http: every byte from [0x80] up becomes a
    percent sign and its two hexadecimal digits. *)
Fixpoint hexEscapeNonASCII (s : string) : string :=
  match s with
  | EmptyString => EmptyString
  | String c s' =>
    let n := N_of_ascii c in
    if (128 <=? n)%N
    then String "%" (String (hex_digit (n / 16))
                       (String (hex_digit (n mod 16)) (hexEscapeNonASCII s')))
    else String c (hexEscapeNonASCII s')
  end.

(** A string of bytes below [0x80]. *)
Fixpoint all_ASCII (s : string) : bool :=
  match s with
  | EmptyString => true
  | String c s' => (N_of_ascii c <? 128)%N && all_ASCII s'
  end.

(** The fields [Scheme] and [Host] of a parsed URL. *)
Variable URL_Scheme : URL -> string.
Variable URL_Host : URL -> string.

(** The [Location] header of the reply of [http.Redirect] to the target
    [url]. [Redirect] parses the target with [url.Parse]. A target that
    does not parse, or in which the parser finds a scheme or a host, is
    sent as it is, non-ASCII bytes escaped. A target with neither scheme
    nor host is a path relative to the request: [Redirect] makes it
    absolute against the path of the request and cleans it ([path.Clean])
    before sending it; [None] stands for that case, in which what is sent
    is the rewritten path and need not be the target the handler
    passed. *)
Definition Redirect_Location (url : string) : option string :=
  match url_Parse url with
  | Some u =>
    if decide (URL_Scheme u = EmptyString /\ URL_Host u = EmptyString)
    then None
    else Some (hexEscapeNonASCII url)
  | None => Some (hexEscapeNonASCII url)
  end.

(** [RedirectHandler] *)
Definition RedirectHandler (cfg : Config) (r : Request) : M unit :=
  let* ticket := SelectBackend in
  let '(currentRequestNum, proxyIdx) := ticket in
  let* proxyStr := index (proxyStrings cfg) proxyIdx in
  let serverStr := proxyStr +:+ URL_String r in
  http_Redirect serverStr (redirectCode cfg).


(** ** Handlers run one after the other *)

Definition handle (cfg : Config) (h : handler)
    (ro : Request * serve_outcome) : M unit :=
  match h with
  | ProxyH => ProxyRequestHandler cfg ro.2 ro.1
  | RedirectH => RedirectHandler cfg ro.1
  end.

(** Serves the requests in order, each handler run finishing (or getting
    stuck for good) before the next starts; the result is the final world
    and how each run ended. *)
Fixpoint serve_sequentially (cfg : Config) (h : handler)
    (reqs : list (Request * serve_outcome)) (w : World URL)
    : World URL * list (res unit) :=
  match reqs with
  | [] => (w, [])
  | ro :: rest =>
    let '(w1, x) := handle cfg h ro w in
    let '(w2, xs) := serve_sequentially cfg h rest w1 in
    (w2, x :: xs)
  end.

(** The values of the locals [(currentRequestNum, proxyIdx)] of each run
    of [serve_sequentially]: what [SelectBackend], the first action of
    either handler, returns in the world the run starts in. *)
Fixpoint selected_sequentially (cfg : Config) (h : handler)
    (reqs : list (Request * serve_outcome)) (w : World URL)
    : list (res (Z * Z)) :=
  match reqs with
  | [] => []
  | ro :: rest =>
    (SelectBackend w).2
      :: selected_sequentially cfg h rest (handle cfg h ro w).1
  end.

(** ** Handlers run concurrently

    [net/http] runs every request in a goroutine of its own. A task is a
    run of [ProxyRequestHandler] with its program counter and locals; a
    step of the system is one task doing its next action, atomically:
    drawing its ticket, getting through [Acquire] and entering
    [ServeHTTP], leaving [ServeHTTP], releasing. What a handler does
    between two of these actions is local to it (reads of the lists that
    start-up has filled, the call itself), so it is taken into the step
    of the action before. *)

Inductive pc : Type :=
| pcStart (r : Request)
| pcSelected (r : Request) (currentRequestNum proxyIdx : Z)
| pcForwarding (r : Request) (currentRequestNum proxyIdx : Z)
    (limiter : option nat)                 (* inside proxy.ServeHTTP *)
| pcForwarded (r : Request) (currentRequestNum proxyIdx : Z)
    (limiter : option nat)                 (* proxy.ServeHTTP has returned *)
| pcDone                                   (* the handler has returned *)
| pcAborted.                               (* the handler was unwound by a panic *)

Record System : Type := mkSystem {
  world : World URL;
  tasks : list pc
}.

(** Task [t] runs the action [m] and goes on at [k a]; a panic ends the
    task, an action that cannot return now is no step. *)
Definition advance {A} (t : nat) (s : System) (m : M A) (k : A -> pc)
    : option System :=
  match m (world s) with
  | (w', Ret a) => Some {| world := w'; tasks := <[t := k a]> (tasks s) |}
  | (w', Panic) => Some {| world := w'; tasks := <[t := pcAborted]> (tasks s) |}
  | (_, Blocked) => None
  end.

Definition task_step (cfg : Config) (t : nat) (o : serve_outcome)
    (s : System) : option System :=
  match tasks s !! t with
  | None => None
  | Some (pcStart r) =>
    advance t s
      (let* ticket := SelectBackend in
       let* proxy := SelectProxy ticket.2 in
       ret ticket)
      (fun ticket => pcSelected r ticket.1 ticket.2)
  | Some (pcSelected r n i) =>
    advance t s
      (let* limiter := AcquireLimiter cfg i in
       let* _ := ServeHTTP_call i r in
       ret limiter)
      (fun limiter => pcForwarding r n i limiter)
  | Some (pcForwarding r n i limiter) =>
    advance t s (ServeHTTP_end o) (fun _ => pcForwarded r n i limiter)
  | Some (pcForwarded r n i limiter) =>
    advance t s (ReleaseLimiter cfg limiter) (fun _ => pcDone)
  | Some pcDone => None
  | Some pcAborted => None
  end.

(** A new request arrives: a new task at the entry of the handler. *)
Definition accept (r : Request) (s : System) : System :=
  {| world := world s; tasks := tasks s ++ [pcStart r] |}.

(** The system when [main] starts serving: no request yet. *)
Definition serving (w : World URL) : System := {| world := w; tasks := [] |}.

Inductive reachable (cfg : Config) (w0 : World URL) : System -> Prop :=
| reach_serving : reachable cfg w0 (serving w0)
| reach_accept s r :
    reachable cfg w0 s -> reachable cfg w0 (accept r s)
| reach_step s t o s' :
    reachable cfg w0 s -> task_step cfg t o s = Some s' ->
    reachable cfg w0 s'.

(** A schedule: which request arrives or which task steps next. *)
Inductive action : Type :=
| Accept (r : Request)
| Step (t : nat) (o : serve_outcome).

Fixpoint run (cfg : Config) (sched : list action) (s : System)
    : option System :=
  match sched with
  | [] => Some s
  | Accept r :: rest => run cfg rest (accept r s)
  | Step t o :: rest =>
    match task_step cfg t o s with
    | None => None
    | Some s' => run cfg rest s'
    end
  end.

(** The number of tasks whose program counter satisfies [P]. *)
Definition count_tasks (P : pc -> bool) (ts : list pc) : nat :=
  length (filter (fun p => P p = true) ts).

(** The number of forwards running against backend [i]: the tasks inside
    [proxy.ServeHTTP] of proxy [i]. *)
Definition is_forwarding (i : Z) (p : pc) : bool :=
  match p with
  | pcForwarding _ _ j _ => bool_decide (j = i)
  | _ => false
  end.

Definition forwards_running (i : Z) (s : System) : nat :=
  count_tasks (is_forwarding i) (tasks s).

(** The tasks that hold a permit of limiter [l]: [Acquire] has returned
    and [Release] has not been called. *)
Definition holds_permit (l : nat) (p : pc) : bool :=
  match p with
  | pcForwarding _ _ _ (Some l') => bool_decide (l' = l)
  | pcForwarded _ _ _ (Some l') => bool_decide (l' = l)
  | _ => false
  end.

Definition permits_held (l : nat) (s : System) : nat :=
  count_tasks (holds_permit l) (tasks s).

(** A task that has got past the limiter: it is forwarding or has done so. *)
Definition past_limiter (p : pc) : bool :=
  match p with
  | pcForwarding _ _ _ _ | pcForwarded _ _ _ _ | pcDone => true
  | _ => false
  end.

Definition is_permit_event (e : event) : bool :=
  match e with
  | EvAcquire _ | EvRelease _ => true
  | _ => false
  end.

(** ** The steps as a relation

    The cases of [task_step], one constructor per way a task can move;
    [task_step_sound] shows that every step of [task_step] is one of
    them. [step_release_panic] is the panic of a [Release] of more than
    is held, which leaves the count negative; [step_abort] stands for
    every other panic after the ticket was drawn: the task is unwound
    where it is and the world stays as it is. *)
Inductive step (cfg : Config) (t : nat) (s : System) : System -> Prop :=
| step_select r num n idx :
    tasks s !! t = Some (pcStart r) ->
    num = AddUint32 (requestNum (proxyState (world s))) 1 ->
    n = uint32 (Z.of_nat (length (proxies (proxyState (world s))))) ->
    n <> 0 ->
    idx = num mod n ->
    is_Some (proxies (proxyState (world s)) !! Z.to_nat idx) ->
    step cfg t s {| world := with_requestNum num (world s);
                    tasks := <[t := pcSelected r num idx]> (tasks s) |}
| step_select_panic r num :
    tasks s !! t = Some (pcStart r) ->
    num = AddUint32 (requestNum (proxyState (world s))) 1 ->
    step cfg t s {| world := with_requestNum num (world s);
                    tasks := <[t := pcAborted]> (tasks s) |}
| step_forward_unlimited r num idx :
    tasks s !! t = Some (pcSelected r num idx) ->
    numConnsPerServer cfg = 0 ->
    step cfg t s
      {| world := {| proxyState := proxyState (world s);
                     semaphores := semaphores (world s);
                     trace := trace (world s)
                                ++ [EvServeHTTP (Z.to_nat idx) r] |};
         tasks := <[t := pcForwarding r num idx None]> (tasks s) |}
| step_acquire r num idx l sem :
    tasks s !! t = Some (pcSelected r num idx) ->
    numConnsPerServer cfg <> 0 ->
    connLimiters (proxyState (world s)) !! Z.to_nat idx = Some l ->
    semaphores (world s) !! l = Some sem ->
    1 <= semaphore.size sem - semaphore.cur sem ->
    step cfg t s
      {| world := {| proxyState := proxyState (world s);
                     semaphores :=
                       <[l := {| semaphore.size := semaphore.size sem;
                                 semaphore.cur := semaphore.cur sem + 1 |}]>
                         (semaphores (world s));
                     trace := (trace (world s) ++ [EvAcquire l])
                                ++ [EvServeHTTP (Z.to_nat idx) r] |};
         tasks := <[t := pcForwarding r num idx (Some l)]> (tasks s) |}
| step_served r num idx limiter :
    tasks s !! t = Some (pcForwarding r num idx limiter) ->
    step cfg t s {| world := world s;
                    tasks := <[t := pcForwarded r num idx limiter]> (tasks s) |}
| step_return_unlimited r num idx limiter :
    tasks s !! t = Some (pcForwarded r num idx limiter) ->
    numConnsPerServer cfg = 0 ->
    step cfg t s {| world := world s; tasks := <[t := pcDone]> (tasks s) |}
| step_release r num idx l sem :
    tasks s !! t = Some (pcForwarded r num idx (Some l)) ->
    numConnsPerServer cfg <> 0 ->
    semaphores (world s) !! l = Some sem ->
    0 <= semaphore.cur sem - 1 ->
    step cfg t s
      {| world := {| proxyState := proxyState (world s);
                     semaphores :=
                       <[l := {| semaphore.size := semaphore.size sem;
                                 semaphore.cur := semaphore.cur sem - 1 |}]>
                         (semaphores (world s));
                     trace := trace (world s) ++ [EvRelease l] |};
         tasks := <[t := pcDone]> (tasks s) |}
| step_release_panic r num idx l sem :
    tasks s !! t = Some (pcForwarded r num idx (Some l)) ->
    numConnsPerServer cfg <> 0 ->
    semaphores (world s) !! l = Some sem ->
    semaphore.cur sem - 1 < 0 ->
    step cfg t s
      {| world := {| proxyState := proxyState (world s);
                     semaphores :=
                       <[l := {| semaphore.size := semaphore.size sem;
                                 semaphore.cur := semaphore.cur sem - 1 |}]>
                         (semaphores (world s));
                     trace := trace (world s) |};
         tasks := <[t := pcAborted]> (tasks s) |}
| step_abort p :
    tasks s !! t = Some p ->
    (forall r, p <> pcStart r) ->
    step cfg t s {| world := world s; tasks := <[t := pcAborted]> (tasks s) |}.

(** ** Invariants of the reachable states *)

(** The locals of a task past the selection, with [N] backends and the
    limiters [InitProxyState] lays out for a per-backend cap [cap]: the
    index is within the backends, and a task past the limiter holds in
    [limiter] the limiter of its backend, or nil without limit. *)
Definition task_ok (N : nat) (cap : Z) (p : pc) : Prop :=
  match p with
  | pcSelected _ _ i => 0 <= i /\ (Z.to_nat i < N)%nat
  | pcForwarding _ _ i limiter | pcForwarded _ _ i limiter =>
    0 <= i /\ (Z.to_nat i < N)%nat
    /\ limiter = if decide (cap <> 0) then Some (Z.to_nat i) else None
  | _ => True
  end.

(** The invariant of admission control with a per-backend cap [cap]: the
    lists set up at start-up stay, every limiter keeps its size [cap], and
    the permits the tasks hold of a limiter are covered by its count,
    which stays within the size. *)
Definition permit_invariant (cap : Z) (w0 : World URL) (s : System) : Prop :=
  let N := length (proxies (proxyState w0)) in
  proxies (proxyState (world s)) = proxies (proxyState w0)
  /\ connLimiters (proxyState (world s)) = seq 0 N
  /\ length (semaphores (world s)) = N
  /\ (forall l sem, semaphores (world s) !! l = Some sem ->
       semaphore.size sem = cap
       /\ Z.of_nat (permits_held l s) <= semaphore.cur sem <= Z.max 0 cap)
  /\ Forall (task_ok N cap) (tasks s).

(** The permits of limiter [l] that are counted by the semaphore and held
    by no task: what handlers took and did not give back. *)
Definition leaked (l : nat) (s : System) : Z :=
  match semaphores (world s) !! l with
  | Some sem => semaphore.cur sem - Z.of_nat (permits_held l s)
  | None => 0
  end.

(** The backend index among the locals [SelectBackend] returns. *)
Definition proxyIdx_of (x : res (Z * Z)) : option Z :=
  match x with
  | Ret ticket => Some ticket.2
  | _ => None
  end.

(** The event [e] is an action of the handler of request [r] on the
    backend with index [i]: on its limiter, its proxy or its base URI. *)
Definition event_uses (cfg : Config) (st : ProxyState URL) (r : Request)
    (i : nat) (e : event) : Prop :=
  match e with
  | EvAcquire l => connLimiters st !! i = Some l
  | EvRelease l => connLimiters st !! i = Some l
  | EvServeHTTP j r' => j = i /\ r' = r
  | EvRedirect url code =>
    exists B, proxyStrings cfg !! i = Some B
              /\ url = B +:+ URL_String r /\ code = redirectCode cfg
  end.

(** ** The call of [Setrlimit]

    [SetOpenFilesLimit] in full: beside the write to [config.fdLimit]
    ([SetOpenFilesLimit] above) it either returns early or calls
    [syscall.Setrlimit] with the limit read, its [Cur] replaced by the
    clamped configuration value. The result is the argument of that
    call, [None] when the function returns without calling. *)
Definition SetOpenFilesLimit_Setrlimit (cfg : Config) : option Rlimit :=
  let rlimit := GetOpenFilesLimit in
  let cfg' := SetOpenFilesLimit cfg in
  if decide (fdLimit cfg' <= Cur rlimit) then None
  else Some {| Cur := fdLimit cfg'; Max := Max rlimit |}.

(** The call of [Setrlimit] that [ParseArguments] leads to, if any. *)
Definition ParseArguments_Setrlimit (f : Flags) : option Rlimit :=
  let cfg := {| beVerbose := flag_verbose f; showVersion := flag_version f;
                listenPort := flag_port f; proxyStrings := flag_Args f;
                poolBufSize := flag_bufsize f;
                numConnsPerServer := flag_maxconns f;
                redirectCode := flag_redirect f; fdLimit := flag_fdlimit f |} in
  if showVersion cfg then None
  else if decide (length (flag_Args f) = 0%nat) then None
  else if decide (fdLimit cfg <> 0) then SetOpenFilesLimit_Setrlimit cfg
  else None.

(** ** Observations on tasks and schedules *)

(** The local [currentRequestNum] of a task that has drawn its ticket and
    is still in the handler. *)
Definition ticket_of (p : pc) : option Z :=
  match p with
  | pcSelected _ n _ | pcForwarding _ n _ _ | pcForwarded _ n _ _ => Some n
  | _ => None
  end.

(** The local [proxyIdx] of such a task. *)
Definition backend_of (p : pc) : option Z :=
  match p with
  | pcSelected _ _ i | pcForwarding _ _ i _ | pcForwarded _ _ i _ => Some i
  | _ => None
  end.

(** A task that has drawn its ticket, wherever it is now. *)
Definition has_drawn (p : pc) : bool :=
  match p with
  | pcStart _ => false
  | _ => true
  end.

(** A schedule in which every forward returns. *)
Definition forward_returns (a : action) : Prop :=
  match a with
  | Step _ ServePanics => False
  | _ => True
  end.

(** The tickets of a state: the counter has counted the tasks that have
    drawn, every ticket a task holds lies between 1 and the counter, and
    no two tasks hold the same. *)
Definition tickets_ok (s : System) : Prop :=
  let R := requestNum (proxyState (world s)) in
  R = Z.of_nat (count_tasks has_drawn (tasks s))
  /\ (forall t p n,
        tasks s !! t = Some p -> ticket_of p = Some n -> 1 <= n <= R)
  /\ (forall t1 t2 p1 p2 n,
        tasks s !! t1 = Some p1 -> tasks s !! t2 = Some p2 ->
        ticket_of p1 = Some n -> ticket_of p2 = Some n -> t1 = t2).

(** The backend index among the locals of a task is its ticket modulo
    the number of backends [N]. *)
Definition selection_ok (N : Z) (p : pc) : Prop :=
  match p with
  | pcSelected _ n i | pcForwarding _ n i _ | pcForwarded _ n i _ =>
    i = n mod N
  | _ => True
  end.

(** What the next step of a task at [p] is, in a state reachable from
    start-up with [N] backends and the per-backend cap [cap]: where the
    task goes on, or, at the limiter, that it goes on exactly when the
    semaphore of its backend has a permit free. *)
Definition next_step (cfg : Config) (N : Z) (t : nat) (o : serve_outcome)
    (s : System) (p : pc) : Prop :=
  let goes_to p' :=
    exists s', task_step cfg t o s = Some s' /\ tasks s' !! t = Some p' in
  match p with
  | pcStart r =>
    let num := AddUint32 (requestNum (proxyState (world s))) 1 in
    goes_to (pcSelected r num (num mod N))
  | pcSelected r n i =>
    if decide (numConnsPerServer cfg = 0)
    then goes_to (pcForwarding r n i None)
    else exists sem,
      semaphores (world s) !! Z.to_nat i = Some sem
      /\ semaphore.size sem = numConnsPerServer cfg
      /\ 0 <= semaphore.cur sem
      /\ if decide (1 <= numConnsPerServer cfg - semaphore.cur sem)
         then goes_to (pcForwarding r n i (Some (Z.to_nat i)))
         else task_step cfg t o s = None
  | pcForwarding r n i limiter =>
    goes_to (match o with
             | ServeReturns => pcForwarded r n i limiter
             | ServePanics => pcAborted
             end)
  | pcForwarded r n i limiter => goes_to pcDone
  | pcDone => task_step cfg t o s = None
  | pcAborted => task_step cfg t o s = None
  end.

End Proxperfect.

(* ===================================================================== *)
(** * Example inputs *)

Module Ex.

(** A [url.Parse] that accepts every string. *)
Definition parse_any (s : string) : option string := Some s.

(** The scheme and the host that parser finds: a string that begins with
    [http://] has the scheme [http] and as its host what follows up to
    the next slash, question mark or hash; any other string has neither. *)
Definition scheme (u : string) : string :=
  if String.prefix "http://" u then "http" else EmptyString.

Fixpoint authority (s : string) : string :=
  match s with
  | EmptyString => EmptyString
  | String c s' =>
    if bool_decide (c = "/" \/ c = "?" \/ c = "#")%char then EmptyString
    else String c (authority s')
  end.

Definition host (u : string) : string :=
  if String.prefix "http://" u
  then authority (String.substring 7 (String.length u - 7) u)
  else EmptyString.

(** A port on which the process cannot listen, 70000, among ports on
    which it can. *)
Definition listen (port : Z) : listen_outcome :=
  if decide (0 <= port <= 65535) then ListenServes else ListenReturns.

Definition rlimit : Rlimit := {| Cur := 1024; Max := 4096 |}.

(** A command line with the defaults of the flags, but for [-maxconns],
    [-redirect] and the backends. *)
Definition flags (maxconns redirect : Z) (args : list string) : Flags :=
  {| flag_version := false; flag_verbose := false; flag_port := 8080;
     flag_bufsize := 128 * 1024; flag_maxconns := maxconns;
     flag_redirect := redirect; flag_fdlimit := 0; flag_Args := args |}.

Definition GET (path : string) : Request :=
  {| Method := "GET"; URL_String := path |}.

(** The configuration [ParseArguments] leaves for [flags]. *)
Definition config (maxconns redirect : Z) (args : list string) : Config :=
  {| beVerbose := false; showVersion := false; listenPort := 8080;
     proxyStrings := args; poolBufSize := 128 * 1024;
     numConnsPerServer := maxconns; redirectCode := redirect; fdLimit := 0 |}.

(** The world [InitProxyState] leaves for [flags]. *)
Definition world (maxconns redirect : Z) (args : list string)
    : World string :=
  match InitProxyState parse_any (config maxconns redirect args) args
          zero_World with
  | Some w => w
  | None => zero_World
  end.

Definition start (f : Flags) : startup := main parse_any rlimit f.

(** The state a schedule leads to from start-up (the state of start-up
    itself if the schedule asks for a step that is not enabled). *)
Definition after (maxconns : Z) (args : list string) (sched : list action)
    : System :=
  match run (config maxconns 0 args) sched (serving (world maxconns 0 args))
  with
  | Some s => s
  | None => serving (world maxconns 0 args)
  end.

(** Two backends, one connection each; three requests arrive and draw
    their tickets; the first two get their permits and are forwarded, the
    third has to wait for the permit the first one holds. *)
Definition three_requests : list action :=
  [Accept (GET "/a"); Accept (GET "/b"); Accept (GET "/c");
   Step 0 ServeReturns; Step 1 ServeReturns; Step 2 ServeReturns;
   Step 0 ServeReturns; Step 1 ServeReturns].

(** One backend, one connection; the forward of the first request is
    aborted by a panic; then a second request arrives and draws its
    ticket. *)
Definition aborted_forward : list action :=
  [Accept (GET "/x"); Step 0 ServeReturns; Step 0 ServeReturns;
   Step 0 ServePanics;
   Accept (GET "/y"); Step 1 ServeReturns].

(** A configuration with buffers of four bytes. *)
Definition small_buffers : Config :=
  {| beVerbose := false; showVersion := false; listenPort := 8080;
     proxyStrings := ["http://a"]; poolBufSize := 4;
     numConnsPerServer := 10; redirectCode := 0; fdLimit := 0 |}.

Definition four_bytes : BufferPool.buffer :=
  [Byte.x01; Byte.x02; Byte.x03; Byte.x04].

End Ex.

(* ===================================================================== *)
(** * Facts *)

Section Facts.

Context {URL : Type}.
Variable url_Parse : string -> option URL.
Variable GetOpenFilesLimit : Rlimit.
Variable URL_Scheme : URL -> string.
Variable URL_Host : URL -> string.

Local Abbreviation main := (main url_Parse GetOpenFilesLimit).
Local Abbreviation main_ListenAndServe :=
  (main_ListenAndServe url_Parse GetOpenFilesLimit).
Local Abbreviation Redirect_Location :=
  (Redirect_Location url_Parse URL_Scheme URL_Host).
Local Abbreviation ParseArguments := (ParseArguments GetOpenFilesLimit).
Local Abbreviation SetOpenFilesLimit := (SetOpenFilesLimit GetOpenFilesLimit).
Local Abbreviation InitProxyState := (InitProxyState url_Parse).
Local Abbreviation InitProxyState_loop := (InitProxyState_loop url_Parse).
Local Abbreviation InitProxyState_body := (InitProxyState_body url_Parse).
Local Abbreviation NewProxy := (NewProxy url_Parse).
Local Abbreviation World := (World URL).
Local Abbreviation System := (@System URL).

(** ** Start-up *)

Lemma InitProxyState_loop_spec cfg args (w w' : World) :
  InitProxyState_loop cfg args w = Some w' ->
  length (proxies (proxyState w'))
    = (length (proxies (proxyState w)) + length args)%nat
  /\ requestNum (proxyState w') = requestNum (proxyState w)
  /\ trace w' = trace w
  /\ (numConnsPerServer cfg <> 0 ->
      connLimiters (proxyState w')
        = connLimiters (proxyState w)
            ++ seq (length (semaphores w)) (length args)
      /\ semaphores w'
        = semaphores w
            ++ replicate (length args)
                 (semaphore.NewWeighted (numConnsPerServer cfg)))
  /\ (numConnsPerServer cfg = 0 ->
      connLimiters (proxyState w') = connLimiters (proxyState w)
      /\ semaphores w' = semaphores w).
Proof.
  revert w. induction args as [|a args IH]; intros w H; simpl in H.
  - inversion H; subst. simpl. rewrite Nat.add_0_r, !app_nil_r. tauto.
  - destruct (InitProxyState_body cfg a w) as [w1|] eqn:Hb; [|discriminate].
    apply IH in H. destruct H as (Hp & Hr & Ht & Hn & Hz).
    unfold InitProxyState_body in Hb.
    destruct (NewProxy a) as [proxy|]; [|discriminate].
    destruct (decide (numConnsPerServer cfg <> 0)) as [Hc|Hc];
      inversion Hb; subst w1; clear Hb; simpl in *;
      rewrite Hp, Hr, Ht, length_app; simpl; split_and!; try lia; try done.
    all: intros Hc'.
    all: first [ destruct (Hn Hc') as [-> ->] | destruct (Hz Hc') as [-> ->] ].
    all: rewrite ?length_app, <- ?app_assoc; simpl; try done.
    by rewrite Nat.add_1_r.
Qed.

Lemma SetOpenFilesLimit_fields cfg :
  proxyStrings (SetOpenFilesLimit cfg) = proxyStrings cfg
  /\ numConnsPerServer (SetOpenFilesLimit cfg) = numConnsPerServer cfg
  /\ redirectCode (SetOpenFilesLimit cfg) = redirectCode cfg
  /\ poolBufSize (SetOpenFilesLimit cfg) = poolBufSize cfg.
Proof. unfold SetOpenFilesLimit. by case_decide. Qed.

Lemma ParseArguments_inr f cfg :
  ParseArguments f = inr cfg ->
  flag_version f = false
  /\ flag_Args f <> []
  /\ proxyStrings cfg = flag_Args f
  /\ numConnsPerServer cfg = flag_maxconns f
  /\ redirectCode cfg = flag_redirect f
  /\ poolBufSize cfg = flag_bufsize f.
Proof.
  unfold ParseArguments. simpl.
  destruct (flag_version f); [discriminate|].
  destruct (decide (length (flag_Args f) = 0%nat)) as [|Hn]; [discriminate|].
  assert (flag_Args f <> []) by (intros E; by rewrite E in Hn).
  case_decide; intros [= <-]; [|done].
  by destruct (SetOpenFilesLimit_fields
    {| beVerbose := flag_verbose f; showVersion := false;
       listenPort := flag_port f; proxyStrings := flag_Args f;
       poolBufSize := flag_bufsize f; numConnsPerServer := flag_maxconns f;
       redirectCode := flag_redirect f; fdLimit := flag_fdlimit f |})
    as (-> & -> & -> & ->).
Qed.

(** What holds of the configuration and the world [main] starts to serve
    with. *)
Lemma main_Serving f h cfg w :
  main f = Serving h cfg w ->
  flag_version f = false
  /\ flag_Args f <> []
  /\ proxyStrings cfg = flag_Args f
  /\ numConnsPerServer cfg = flag_maxconns f
  /\ redirectCode cfg = flag_redirect f
  /\ h = (if decide (redirectCode cfg = 0) then ProxyH else RedirectH)
  /\ length (proxies (proxyState w)) = length (flag_Args f)
  /\ requestNum (proxyState w) = 0
  /\ trace w = []
  /\ (numConnsPerServer cfg <> 0 ->
      connLimiters (proxyState w) = seq 0 (length (flag_Args f))
      /\ semaphores w
        = replicate (length (flag_Args f))
            (semaphore.NewWeighted (numConnsPerServer cfg)))
  /\ (numConnsPerServer cfg = 0 ->
      connLimiters (proxyState w) = [] /\ semaphores w = []).
Proof.
  unfold main. destruct (ParseArguments f) as [|cfg'] eqn:Hp; [discriminate|].
  destruct (InitProxyState cfg' (flag_Args f) zero_World) as [w'|] eqn:Hi;
    [|discriminate].
  intros Hs.
  assert (cfg' = cfg /\ w' = w
          /\ h = if decide (redirectCode cfg' = 0) then ProxyH else RedirectH)
    as (-> & -> & Hh) by (case_decide; by inversion Hs).
  clear Hs. apply ParseArguments_inr in Hp as (? & ? & ? & ? & ? & ?).
  apply InitProxyState_loop_spec in Hi as (? & ? & ? & ? & ?).
  simpl in *. split_and!; done.
Qed.


Lemma InitProxyState_loop_parses cfg args (w : World) :
  Forall (fun a => is_Some (url_Parse a)) args ->
  is_Some (InitProxyState_loop cfg args w).
Proof.
  intros Hall. revert w. induction Hall as [|a args [u Hu] _ IH]; intros w.
  - by eexists.
  - simpl. unfold InitProxyState_body, NewProxy. rewrite Hu.
    case_decide; apply IH.
Qed.

(** [main] gets as far as serving when it is not asked for the version,
    there is a backend, and every backend parses as a URL. *)
Lemma main_serves f :
  flag_version f = false -> flag_Args f <> [] ->
  Forall (fun a => is_Some (url_Parse a)) (flag_Args f) ->
  exists h cfg w, main f = Serving h cfg w.
Proof.
  intros Hv Hne Hall. unfold main, ParseArguments. simpl. rewrite Hv.
  destruct (decide (length (flag_Args f) = 0%nat)) as [E|_].
  { destruct (flag_Args f); [done | discriminate]. }
  set (cfg0 := {| beVerbose := flag_verbose f; showVersion := false;
                  listenPort := flag_port f; proxyStrings := flag_Args f;
                  poolBufSize := flag_bufsize f;
                  numConnsPerServer := flag_maxconns f;
                  redirectCode := flag_redirect f;
                  fdLimit := flag_fdlimit f |}).
  assert (forall cfg, exists h w,
    match InitProxyState cfg (flag_Args f) zero_World with
    | Some w0 => if decide (redirectCode cfg = 0) then Serving ProxyH cfg w0
                 else Serving RedirectH cfg w0
    | None => StartupPanic
    end = Serving h cfg w) as Hinit.
  { intros cfg. unfold InitProxyState.
    edestruct (InitProxyState_loop_parses cfg (flag_Args f)) as [w0 ->];
      [done|]. case_decide; eauto. }
  case_decide.
  - destruct (Hinit (SetOpenFilesLimit cfg0)) as (h & w & ->). eauto.
  - destruct (Hinit cfg0) as (h & w & ->). eauto.
Qed.

(* ===================================================================== *)
(** * Facts about the handlers *)

Lemma uint32_small z : 0 <= z < uint32_modulus -> uint32 z = z.
Proof. intros. unfold uint32. by apply Z.mod_small. Qed.

Lemma uint32_range z : 0 <= uint32 z < uint32_modulus.
Proof. unfold uint32, uint32_modulus. apply Z.mod_pos_bound. lia. Qed.

Lemma SelectBackend_spec (w : World) :
  let t := AddUint32 (requestNum (proxyState w)) 1 in
  let n := uint32 (Z.of_nat (length (proxies (proxyState w)))) in
  SelectBackend w
    = (with_requestNum t w, if decide (n = 0) then Panic else Ret (t, t mod n)).
Proof.
  unfold SelectBackend, bind, atomic_AddUint32_requestNum, read_proxyState,
    rem_uint32. simpl. case_decide; reflexivity.
Qed.

(** With [N] backends, [0 < N < 2^32], the selection returns the new
    ticket and that ticket modulo [N], an index below [N]. *)
Lemma SelectBackend_Ret (w : World) :
  let t := AddUint32 (requestNum (proxyState w)) 1 in
  let N := Z.of_nat (length (proxies (proxyState w))) in
  0 < N < uint32_modulus ->
  SelectBackend w = (with_requestNum t w, Ret (t, t mod N))
  /\ 0 <= t mod N < N.
Proof.
  intros t N HN. rewrite SelectBackend_spec. fold t. fold N.
  rewrite uint32_small by lia.
  split; [|apply Z.mod_pos_bound; lia].
  case_decide; [lia | reflexivity].
Qed.

Lemma index_Ret {A} (l : list A) i x (w : World) :
  l !! Z.to_nat i = Some x -> index l i w = (w, Ret x).
Proof. unfold index. by intros ->. Qed.

Lemma RedirectHandler_spec cfg r (w : World) B :
  let t := AddUint32 (requestNum (proxyState w)) 1 in
  let n := uint32 (Z.of_nat (length (proxies (proxyState w)))) in
  n <> 0 ->
  proxyStrings cfg !! Z.to_nat (t mod n) = Some B ->
  100 <= redirectCode cfg <= 999 ->
  RedirectHandler cfg r w
    = ({| proxyState := proxyState (with_requestNum t w);
          semaphores := semaphores w;
          trace := trace w ++ [EvRedirect (B +:+ URL_String r) (redirectCode cfg)] |},
       Ret tt).
Proof.
  intros t n Hn HB Hcode. unfold RedirectHandler, bind.
  rewrite SelectBackend_spec. fold t. fold n.
  case_decide; [done|]. unfold index. rewrite HB. simpl.
  unfold http_Redirect. by rewrite decide_False by lia.
Qed.

(** With a code that [WriteHeader] refuses, the run ends in its panic
    with the ticket drawn and nothing sent. *)
Lemma RedirectHandler_invalid_code cfg r (w : World) B :
  let t := AddUint32 (requestNum (proxyState w)) 1 in
  let n := uint32 (Z.of_nat (length (proxies (proxyState w)))) in
  n <> 0 ->
  proxyStrings cfg !! Z.to_nat (t mod n) = Some B ->
  ~ 100 <= redirectCode cfg <= 999 ->
  RedirectHandler cfg r w = (with_requestNum t w, Panic).
Proof.
  intros t n Hn HB Hcode. unfold RedirectHandler, bind.
  rewrite SelectBackend_spec. fold t. fold n.
  case_decide; [done|]. unfold index. rewrite HB. simpl.
  unfold http_Redirect. by rewrite decide_True by lia.
Qed.

Lemma hexEscapeNonASCII_ASCII (s : string) :
  all_ASCII s = true -> hexEscapeNonASCII s = s.
Proof.
  induction s as [|c s IH]; simpl; [done|].
  intros [Hc Hs]%andb_prop. apply N.ltb_lt in Hc.
  destruct (N.leb_spec 128 (N_of_ascii c)); [lia|]. by rewrite IH.
Qed.

(** A handler run writes [proxyState] in one place: the ticket. *)
Lemma handle_proxyState cfg h ro (w : World) :
  proxyState (handle cfg h ro w).1
    = proxyState
        (with_requestNum (AddUint32 (requestNum (proxyState w)) 1) w).
Proof.
  destruct h; unfold handle, ProxyRequestHandler, RedirectHandler, bind;
    rewrite SelectBackend_spec; case_decide; try reflexivity.
  - unfold SelectProxy, AcquireLimiter, ReleaseLimiter, ServeHTTP_call,
      ServeHTTP_end, limiter_Acquire, limiter_Release, index, bind,
      read_proxyState, emit, ret, panic.
    simpl. destruct ro as [r []]; simpl;
      repeat (case_match; simpl in *; simplify_eq; try reflexivity).
  - unfold index, http_Redirect, emit, ret, panic.
    repeat (case_match; simpl in *; simplify_eq; try reflexivity).
Qed.


(** The events of a handler run are actions on the backend with the index
    [SelectBackend] derives from the ticket. *)
Lemma handle_events cfg h ro (w : World) :
  let t := AddUint32 (requestNum (proxyState w)) 1 in
  let n := uint32 (Z.of_nat (length (proxies (proxyState w)))) in
  exists new_events,
    trace (handle cfg h ro w).1 = trace w ++ new_events
    /\ Forall (event_uses cfg (proxyState w) ro.1 (Z.to_nat (t mod n)))
         new_events.
Proof.
  intros t n.
  destruct h; unfold handle, ProxyRequestHandler, RedirectHandler, bind;
    rewrite SelectBackend_spec; fold t; fold n;
    (case_decide; [exists []; by rewrite app_nil_r|]).
  - unfold SelectProxy, AcquireLimiter, ReleaseLimiter, ServeHTTP_call,
      ServeHTTP_end, limiter_Acquire, limiter_Release, index, bind,
      read_proxyState, emit, ret, panic.
    simpl. destruct ro as [r []]; simpl;
      repeat (case_match; simpl in *; simplify_eq);
      rewrite <- ?app_assoc; simpl;
      first [ by (exists []; rewrite app_nil_r)
            | by (eexists; split; [reflexivity|]; repeat constructor) ].
  - unfold index, http_Redirect, emit, ret, panic.
    repeat (case_match; simpl in *; simplify_eq);
      first [ by (exists []; rewrite app_nil_r)
            | (eexists; split; [reflexivity|]; repeat constructor;
               simpl; eauto) ].
Qed.


Lemma serve_sequentially_proxies cfg h reqs (w : World) :
  proxies (proxyState (serve_sequentially cfg h reqs w).1)
    = proxies (proxyState w).
Proof.
  revert w. induction reqs as [|ro reqs IH]; intros w; simpl; [done|].
  pose proof (handle_proxyState cfg h ro w) as Hh.
  destruct (handle cfg h ro w) as [w1 x]. specialize (IH w1).
  destruct (serve_sequentially cfg h reqs w1) as [w2 xs].
  simpl in *. by rewrite IH, Hh.
Qed.

(** Under concurrency: a step of a task at the entry of the handler draws
    the ticket and leaves the entry; every other step leaves the ticket
    alone; no step brings a task back to the entry or changes the lists of
    proxies and limiters. *)
Lemma task_step_ticket cfg t o (s s' : System) :
  task_step cfg t o s = Some s' ->
  proxies (proxyState (world s')) = proxies (proxyState (world s))
  /\ connLimiters (proxyState (world s'))
     = connLimiters (proxyState (world s))
  /\ (forall r, tasks s' !! t <> Some (pcStart r))
  /\ (forall t', t' <> t -> tasks s' !! t' = tasks s !! t')
  /\ requestNum (proxyState (world s'))
     = match tasks s !! t with
       | Some (pcStart _) => AddUint32 (requestNum (proxyState (world s))) 1
       | _ => requestNum (proxyState (world s))
       end.
Proof.
  unfold task_step. destruct (tasks s !! t) as [p|] eqn:Ht; [|done].
  assert (t < length (tasks s))%nat as Hlt by by eapply lookup_lt_Some.
  destruct p; try done; unfold advance, bind;
    [ rewrite SelectBackend_spec | | | ];
    unfold SelectProxy, AcquireLimiter, ReleaseLimiter, ServeHTTP_call,
      ServeHTTP_end, limiter_Acquire, limiter_Release, index, bind,
      read_proxyState, emit, ret, panic; simpl;
    repeat (case_match; simpl in *; simplify_eq);
    intros; simplify_eq; simpl;
    (split_and!; [done | done | | |done]);
    try (intros r'; rewrite list_lookup_insert_eq by done; done);
    try (intros t' Hne; by rewrite list_lookup_insert_ne).
Qed.

(* ===================================================================== *)
(** * Start-up and the backend index *)

(** C8. With an empty backend list [main] exits in [ParseArguments]
    (status 1; status 0 when only the version was asked for) and never
    serves. When [main] serves, the backend list is non-empty, and, the
    number of arguments fitting the 32 bits of the divisor, in every world
    with the proxies of start-up the selection divides by a nonzero [N],
    returns an index below [N], and that index is within
    [proxyState.proxies] and [config.proxyStrings]. *)
Theorem no_backends_no_serving (f : Flags)
    (Hargs : Z.of_nat (length (flag_Args f)) < uint32_modulus) :
  (flag_Args f = [] -> main f = Exited (if flag_version f then 0 else 1))
  /\ (forall h cfg w0, main f = Serving h cfg w0 ->
      let N := length (proxies (proxyState w0)) in
      (0 < N)%nat
      /\ uint32 (Z.of_nat N) <> 0
      /\ forall w, proxies (proxyState w) = proxies (proxyState w0) ->
         exists idx,
           (SelectBackend w).2
             = Ret (AddUint32 (requestNum (proxyState w)) 1, idx)
           /\ idx = AddUint32 (requestNum (proxyState w)) 1 mod Z.of_nat N
           /\ 0 <= idx < Z.of_nat N
           /\ is_Some (proxies (proxyState w) !! Z.to_nat idx)
           /\ is_Some (proxyStrings cfg !! Z.to_nat idx)).
Proof.
  split.
  - intros E. unfold main, ParseArguments. simpl. rewrite E. simpl.
    by destruct (flag_version f).
  - intros h cfg w0 Hm N.
    apply main_Serving in Hm
      as (_ & Hne & Hps & _ & _ & _ & Hlen & _).
    assert (0 < N)%nat as HN.
    { subst N. rewrite Hlen. destruct (flag_Args f); [done | simpl; lia]. }
    assert (0 < Z.of_nat N < uint32_modulus) as HN' by (subst N; lia).
    split_and!; [done | rewrite uint32_small; lia |].
    intros w Hw.
    destruct (SelectBackend_Ret w) as [Hsel Hidx]; [by rewrite Hw|].
    rewrite Hw in Hsel, Hidx. fold N in Hsel, Hidx.
    eexists. rewrite Hsel. simpl. split_and!; try done; try lia.
    + apply lookup_lt_is_Some. rewrite Hw. fold N. lia.
    + apply lookup_lt_is_Some. rewrite Hps, <- Hlen. fold N. lia.
Qed.

(* ===================================================================== *)
(** * The dispatch ticket *)

(** C5. A run of either handler leaves the ticket at its old value plus
    one modulo [2^32] and leaves the lists of proxies and limiters, hence
    the backend count, as they were; with [0 < N < 2^32] backends the
    index the handler works with is that new ticket modulo [N], and every
    action of the run is on the backend with that index. Under
    concurrency, the step of a task at the handler's entry is the one step
    that writes the ticket, and a task never comes back to the entry. *)
Theorem ticket_once_per_request cfg h ro (w : World) :
  let w' := (handle cfg h ro w).1 in
  let t := (requestNum (proxyState w) + 1) mod 2 ^ 32 in
  let N := Z.of_nat (length (proxies (proxyState w))) in
  requestNum (proxyState w') = t
  /\ proxies (proxyState w') = proxies (proxyState w)
  /\ connLimiters (proxyState w') = connLimiters (proxyState w)
  /\ (0 < N < 2 ^ 32 ->
      (SelectBackend w).2 = Ret (t, t mod N)
      /\ exists new_events,
           trace w' = trace w ++ new_events
           /\ Forall (event_uses cfg (proxyState w) ro.1 (Z.to_nat (t mod N)))
                new_events)
  /\ (forall k o (s s' : System), task_step cfg k o s = Some s' ->
      proxies (proxyState (world s')) = proxies (proxyState (world s))
      /\ connLimiters (proxyState (world s'))
         = connLimiters (proxyState (world s))
      /\ (forall r, tasks s' !! k <> Some (pcStart r))
      /\ requestNum (proxyState (world s'))
         = match tasks s !! k with
           | Some (pcStart _) =>
             (requestNum (proxyState (world s)) + 1) mod 2 ^ 32
           | _ => requestNum (proxyState (world s))
           end).
Proof.
  intros w' t N. subst w'.
  rewrite handle_proxyState. simpl. split_and!; try reflexivity.
  - intros HN. destruct (SelectBackend_Ret w) as [-> _]; [done|].
    split; [reflexivity|].
    destruct (handle_events cfg h ro w) as (evs & Htr & Hall).
    exists evs. split; [done|].
    rewrite uint32_small in Hall by (unfold uint32_modulus; lia). exact Hall.
  - intros k o s s' Hstep.
    apply task_step_ticket in Hstep as (? & ? & ? & _ & ?). done.
Qed.



(* ===================================================================== *)
(** * Round-robin selection *)

Lemma selected_sequentially_spec cfg h reqs (w : World) :
  let N := Z.of_nat (length (proxies (proxyState w))) in
  0 < N < uint32_modulus ->
  selected_sequentially cfg h reqs w
    = map (fun k : nat =>
             let t := (requestNum (proxyState w) + 1 + Z.of_nat k) mod 2 ^ 32 in
             Ret (t, t mod N))
          (seq 0 (length reqs)).
Proof.
  revert w. induction reqs as [|ro reqs IH]; intros w N HN; [done|].
  simpl selected_sequentially. simpl length. simpl seq. simpl map.
  f_equal.
  - destruct (SelectBackend_Ret w) as [-> _]; [done|]. simpl.
    unfold AddUint32, uint32, uint32_modulus. fold N.
    by rewrite Z.add_0_r.
  - rewrite IH; rewrite handle_proxyState; simpl; [|done].
    rewrite <- seq_shift, map_map. apply map_ext. intros k. fold N.
    unfold AddUint32, uint32, uint32_modulus.
    replace ((requestNum (proxyState w) + 1) mod 2 ^ 32 + 1 + Z.of_nat k)
      with ((requestNum (proxyState w) + 1) mod 2 ^ 32 + (1 + Z.of_nat k))
      by lia.
    rewrite Zplus_mod_idemp_l.
    replace (requestNum (proxyState w) + 1 + (1 + Z.of_nat k))
      with (requestNum (proxyState w) + 1 + Z.of_nat (S k)) by lia.
    reflexivity.
Qed.

(** C3, as the code has it. For [N] backends, [0 < N < 2^32], and
    requests served one after the other by either handler from a world
    whose ticket counter holds [T], request [k] (from 0) draws the ticket
    [(T+1+k) mod 2^32] and selects the backend with that ticket modulo
    [N]. As long as the counter does not wrap ([0 <= T], [T + M < 2^32])
    the indices are [(T+1+k) mod N]: from the initial counter 0 they cycle
    1, 2, ..., N-1, 0, 1, ... *)
Theorem sequential_selection cfg h reqs (w : World) :
  let N := Z.of_nat (length (proxies (proxyState w))) in
  let T := requestNum (proxyState w) in
  let M := length reqs in
  0 < N < 2 ^ 32 ->
  selected_sequentially cfg h reqs w
    = map (fun k : nat =>
             let t := (T + 1 + Z.of_nat k) mod 2 ^ 32 in Ret (t, t mod N))
          (seq 0 M)
  /\ (0 <= T -> T + Z.of_nat M < 2 ^ 32 ->
      map proxyIdx_of (selected_sequentially cfg h reqs w)
        = map (fun k : nat => Some ((T + 1 + Z.of_nat k) mod N)) (seq 0 M)).
Proof.
  intros N T M HN.
  pose proof (selected_sequentially_spec cfg h reqs w HN) as Hs.
  split; [exact Hs|]. intros HT HM.
  rewrite Hs, map_map. apply map_ext_in. intros k Hk.
  apply in_seq in Hk. simpl. fold T. fold N.
  rewrite (Z.mod_small (T + 1 + Z.of_nat k)) by lia. reflexivity.
Qed.

(* ===================================================================== *)
(** * Redirect mode *)


(** C4, as the code has it. In redirect mode with the backends [B0; B1]
    and code 302, the first three requests after start-up are answered, in
    this order, with a 302 to [B1] followed by the first request's URL, a
    302 to [B0] followed by the second's, and a 302 to [B1] followed by
    the third's: the first ticket drawn is 1. *)
Theorem redirect_two_backends (f : Flags) (B0 B1 : string)
    (r1 r2 r3 : Request) o1 o2 o3
    (Hversion : flag_version f = false)
    (Hbackends : flag_Args f = [B0; B1])
    (Hcode : flag_redirect f = 302)
    (HB0 : is_Some (url_Parse B0))
    (HB1 : is_Some (url_Parse B1)) :
  exists cfg w0 w,
    main f = Serving RedirectH cfg w0
    /\ serve_sequentially cfg RedirectH [(r1, o1); (r2, o2); (r3, o3)] w0
       = (w, [Ret tt; Ret tt; Ret tt])
    /\ trace w = [EvRedirect (B1 +:+ URL_String r1) 302;
                  EvRedirect (B0 +:+ URL_String r2) 302;
                  EvRedirect (B1 +:+ URL_String r3) 302].
Proof.
  destruct (main_serves f) as (h & cfg & w0 & Hm).
  { done. } { by rewrite Hbackends. }
  { rewrite Hbackends. by repeat constructor. }
  pose proof Hm as Hm'.
  apply main_Serving in Hm'
    as (_ & _ & Hps & _ & Hrc & Hh & Hlen & Hrn & Htr & _).
  rewrite Hbackends in Hps, Hlen. rewrite Hcode in Hrc.
  rewrite Hrc in Hh. simpl in Hh, Hlen. subst h.
  exists cfg, w0. eexists. split; [exact Hm|].
  simpl serve_sequentially. unfold handle. simpl.
  rewrite (RedirectHandler_spec cfg r1 w0 B1); simpl;
    rewrite ?Hlen, ?Hrn, ?Hps, ?Hrc; try done.
  rewrite (RedirectHandler_spec cfg r2 _ B0); simpl;
    rewrite ?Hlen, ?Hrn, ?Hps, ?Hrc; try done.
  rewrite (RedirectHandler_spec cfg r3 _ B1); simpl;
    rewrite ?Hlen, ?Hrn, ?Hps, ?Hrc; try done.
  rewrite Htr, ?Hrc. simpl. split; reflexivity.
Qed.


(* ===================================================================== *)
(** * Concurrent handlers *)

Lemma task_step_sound cfg t o (s s' : System) :
  task_step cfg t o s = Some s' -> step cfg t s s'.
Proof.
  unfold task_step. destruct (tasks s !! t) as [p|] eqn:Ht; [|done].
  destruct p; try done; unfold advance, bind.
  - rewrite SelectBackend_spec. case_decide.
    + intros [= <-]. by eapply step_select_panic.
    + unfold SelectProxy, bind, read_proxyState, index, ret, panic. simpl.
      destruct (proxies _ !! _) eqn:Hp; simpl; intros [= <-].
      * eapply step_select; eauto.
      * by eapply step_select_panic.
  - unfold AcquireLimiter, bind, read_proxyState, index, limiter_Acquire,
      ServeHTTP_call, emit, ret, panic, semaphore.Acquire.
    repeat (case_match; simpl in *; simplify_eq);
      intros; simplify_eq;
      first [ by (eapply step_acquire; eauto)
            | by (eapply step_forward_unlimited; eauto; lia)
            | by (eapply step_abort; eauto) ].
  - destruct o; simpl; intros [= <-].
    + by eapply step_served.
    + by eapply step_abort.
  - unfold ReleaseLimiter, limiter_Release, ret, panic, semaphore.Release.
    repeat (case_match; simpl in *; simplify_eq);
      intros; simplify_eq;
      first [ by (eapply step_release; eauto; lia)
            | by (eapply step_release_panic; eauto; lia)
            | by (eapply step_return_unlimited; eauto; lia)
            | by (eapply step_abort; eauto) ].
Qed.


Lemma count_tasks_insert P (ts : list pc) t old new :
  ts !! t = Some old ->
  (count_tasks P (<[t := new]> ts) + Nat.b2n (P old)
   = count_tasks P ts + Nat.b2n (P new))%nat.
Proof.
  unfold count_tasks. revert t.
  induction ts as [|p ts IH]; intros [|t] Hl; simpl in *; simplify_eq.
  - rewrite !filter_cons. destruct (P old), (P new); simpl;
      repeat case_decide; simpl; try done; lia.
  - specialize (IH t Hl). rewrite !filter_cons.
    case_decide; simpl; lia.
Qed.

Lemma count_tasks_app P (ts : list pc) p :
  count_tasks P (ts ++ [p]) = (count_tasks P ts + Nat.b2n (P p))%nat.
Proof.
  unfold count_tasks. rewrite filter_app, length_app, filter_cons, filter_nil.
  destruct (P p); case_decide; simpl; try done; lia.
Qed.

Lemma count_tasks_weaken (P Q : pc -> bool) (ts : list pc) :
  Forall (fun p => P p = true -> Q p = true) ts ->
  (count_tasks P ts <= count_tasks Q ts)%nat.
Proof.
  unfold count_tasks. induction 1 as [|p ts Hp _ IH]; [done|].
  rewrite !filter_cons. repeat case_decide; simpl; try lia.
  by destruct Hp.
Qed.

Lemma count_tasks_pos P (ts : list pc) :
  (0 < count_tasks P ts)%nat -> exists p, p ∈ ts /\ P p = true.
Proof.
  unfold count_tasks. intros Hpos.
  destruct (filter (fun p => P p = true) ts) as [|p l] eqn:Hf;
    [simpl in Hpos; lia|].
  assert (p ∈ filter (fun p => P p = true) ts) as Hin
    by (rewrite Hf; left).
  apply list_elem_of_filter in Hin as [? ?]. eauto.
Qed.


Lemma permit_invariant_serving f h cfg (w0 : World) :
  main f = Serving h cfg w0 ->
  numConnsPerServer cfg <> 0 ->
  permit_invariant (numConnsPerServer cfg) w0 (serving w0).
Proof.
  intros Hm Hc.
  apply main_Serving in Hm as (_ & _ & _ & _ & _ & _ & Hlen & _ & _ & Hn & _).
  destruct (Hn Hc) as [Hcl Hsem].
  unfold permit_invariant. simpl. rewrite Hlen, Hcl, Hsem.
  split_and!; try done.
  - by rewrite length_replicate.
  - intros l sem [-> _]%lookup_replicate. simpl.
    unfold permits_held, count_tasks. simpl. lia.
Qed.

Lemma permit_invariant_accept cap (w0 : World) r (s : System) :
  permit_invariant cap w0 s -> permit_invariant cap w0 (accept r s).
Proof.
  intros (Hp & Hcl & Hlen & Hsem & Hok).
  unfold permit_invariant. simpl. split_and!; try done.
  - intros l sem Hl. unfold permits_held. simpl.
    rewrite count_tasks_app. simpl. rewrite Nat.add_0_r. by apply Hsem.
  - apply Forall_app. split; [done|]. by repeat constructor.
Qed.

(** The count of tasks holding limiter [l'] after task [t] moved from
    [old] to [new]. *)
Lemma permits_held_insert l' (w w' : World) ts t old new :
  ts !! t = Some old ->
  Z.of_nat (permits_held l' {| world := w'; tasks := <[t := new]> ts |})
  = Z.of_nat (permits_held l' {| world := w; tasks := ts |})
    - Z.b2z (holds_permit l' old) + Z.b2z (holds_permit l' new).
Proof.
  intros Ht. unfold permits_held. simpl.
  pose proof (count_tasks_insert (holds_permit l') ts t old new Ht).
  destruct (holds_permit l' old), (holds_permit l' new); simpl in *; lia.
Qed.

Lemma count_tasks_lookup_pos P (ts : list pc) t p :
  ts !! t = Some p -> P p = true -> (0 < count_tasks P ts)%nat.
Proof.
  intros Ht HP. unfold count_tasks.
  assert (p ∈ filter (fun p => P p = true) ts) as Hin.
  { apply list_elem_of_filter. split; [done|].
    by eapply list_elem_of_lookup_2. }
  destruct (filter (fun p => P p = true) ts); [by apply elem_of_nil in Hin|].
  simpl. lia.
Qed.

(** Under the invariant a task that is about to release holds a permit
    the semaphore counts: its [Release] does not panic. *)
Lemma release_panic_impossible cap (w0 : World) (s : System) t r num idx l sem :
  permit_invariant cap w0 s ->
  tasks s !! t = Some (pcForwarded r num idx (Some l)) ->
  semaphores (world s) !! l = Some sem ->
  semaphore.cur sem - 1 < 0 ->
  False.
Proof.
  intros (_ & _ & _ & Hsem & _) Ht Hs Hover.
  destruct (Hsem l sem Hs) as [_ Hb].
  assert (0 < permits_held l s)%nat.
  { eapply count_tasks_lookup_pos; [exact Ht|]. simpl.
    by apply bool_decide_eq_true. }
  lia.
Qed.

Lemma permit_invariant_step cfg (w0 : World) t (s s' : System) :
  numConnsPerServer cfg <> 0 ->
  step cfg t s s' ->
  permit_invariant (numConnsPerServer cfg) w0 s ->
  permit_invariant (numConnsPerServer cfg) w0 s'.
Proof.
  intros Hc Hstep (Hp & Hcl & Hlen & Hsem & Hok).
  pose proof (fun i p => Forall_lookup_1 _ _ i p Hok) as Hok'.
  destruct s as [w ts]. simpl in *.
  inversion Hstep as
    [ r num n idx Ht Hnum Hn Hn0 Hidx Hsome
    | r num Ht Hnum
    | r num idx Ht Hz
    | r num idx l sem Ht _ Hl Hs Hfree
    | r num idx limiter Ht
    | r num idx limiter Ht Hz
    | r num idx l sem Ht _ Hs Hheld
    | r num idx l sem Ht _ Hs Hover
    | p Ht Hnot ]; subst; simpl in *; try done;
    try (exfalso; by eapply (release_panic_impossible _ w0
                               {| world := w; tasks := ts |}));
    unfold permit_invariant; simpl; (split_and!; try done);
    try (rewrite length_insert; done);
    try (apply Forall_insert; [done|]; simpl); try done.
  - (* the ticket is drawn *)
    intros l' sem' Hl'. destruct (Hsem l' sem' Hl') as [Hsz Hb].
    split; [done|].
    rewrite (permits_held_insert l' w _ ts t _ _ Ht). simpl. lia.
  - pose proof (uint32_range (Z.of_nat (length (proxies (proxyState w))))).
    apply lookup_lt_is_Some in Hsome. rewrite Hp in *.
    split; [|done]. apply Z.mod_pos_bound. lia.
  - intros l' sem' Hl'. destruct (Hsem l' sem' Hl') as [Hsz Hb].
    split; [done|].
    rewrite (permits_held_insert l' w _ ts t _ _ Ht). simpl. lia.
  - (* a permit is acquired *)
    intros l' sem' Hl'.
    destruct (decide (l' = l)) as [->|Hne].
    + rewrite list_lookup_insert_eq in Hl' by by eapply lookup_lt_Some.
      simplify_eq. simpl. destruct (Hsem l sem Hs) as [Hsz Hb].
      split; [done|].
      rewrite (permits_held_insert l w _ ts t _ _ Ht). simpl.
      rewrite bool_decide_eq_true_2 by done. simpl. lia.
    + rewrite list_lookup_insert_ne in Hl' by done.
      destruct (Hsem l' sem' Hl') as [Hsz Hb]. split; [done|].
      rewrite (permits_held_insert l' w _ ts t _ _ Ht). simpl.
      rewrite bool_decide_eq_false_2 by done. simpl. lia.
  - destruct (Hok' _ _ Ht) as [Hi HiN]. split_and!; try done.
    rewrite Hcl in Hl. apply lookup_seq in Hl as [-> _].
    by rewrite decide_True.
  - (* the forward returns *)
    intros l' sem' Hl'. destruct (Hsem l' sem' Hl') as [Hsz Hb].
    split; [done|].
    rewrite (permits_held_insert l' w _ ts t _ _ Ht). simpl. lia.
  - exact (Hok' _ _ Ht).
  - (* the permit is released *)
    intros l' sem' Hl'.
    destruct (decide (l' = l)) as [->|Hne].
    + rewrite list_lookup_insert_eq in Hl' by by eapply lookup_lt_Some.
      simplify_eq. simpl. destruct (Hsem l sem Hs) as [Hsz Hb].
      split; [done|].
      rewrite (permits_held_insert l w _ ts t _ _ Ht). simpl.
      rewrite bool_decide_eq_true_2 by done. simpl. lia.
    + rewrite list_lookup_insert_ne in Hl' by done.
      destruct (Hsem l' sem' Hl') as [Hsz Hb]. split; [done|].
      rewrite (permits_held_insert l' w _ ts t _ _ Ht). simpl.
      rewrite bool_decide_eq_false_2 by done. simpl. lia.
  - (* the task is unwound by a panic *)
    intros l' sem' Hl'. destruct (Hsem l' sem' Hl') as [Hsz Hb].
    split; [done|].
    rewrite (permits_held_insert l' w _ ts t _ _ Ht). simpl.
    destruct (holds_permit l' p); simpl; lia.
Qed.


Lemma permit_invariant_reachable f h cfg (w0 : World) (s : System) :
  main f = Serving h cfg w0 ->
  numConnsPerServer cfg <> 0 ->
  reachable cfg w0 s ->
  permit_invariant (numConnsPerServer cfg) w0 s.
Proof.
  intros Hm Hc. induction 1 as [|s r _ IH|s t o s' _ IH Hstep].
  - by eapply permit_invariant_serving.
  - by apply permit_invariant_accept.
  - eapply permit_invariant_step; [done| |exact IH].
    by eapply task_step_sound.
Qed.

(** C1. When [main] serves through [ProxyRequestHandler] with a
    per-backend cap [C > 0], then in every state the system can reach,
    whatever requests arrive and however the steps of their handlers
    interleave, the number of handlers inside [proxy.ServeHTTP] of one
    backend is at most [C]. *)
Theorem admission_cap (f : Flags) cfg (w0 : World) (s : System) (i : Z)
    (Hmain : main f = Serving ProxyH cfg w0)
    (Hcap : 0 < numConnsPerServer cfg)
    (Hreach : reachable cfg w0 s) :
  Z.of_nat (forwards_running i s) <= numConnsPerServer cfg.
Proof.
  destruct (permit_invariant_reachable f ProxyH cfg w0 s)
    as (_ & _ & Hlen & Hsem & Hok); [done | lia | done |].
  destruct (decide (forwards_running i s = 0%nat)) as [->|Hpos]; [lia|].
  destruct (count_tasks_pos (is_forwarding i) (tasks s))
    as (p & Hin & Hp); [unfold forwards_running in Hpos; lia|].
  destruct p as [| |r n j limiter| | |]; try done.
  simpl in Hp. apply bool_decide_eq_true in Hp as ->.
  pose proof (proj1 (Forall_forall _ _) Hok _ Hin) as (Hi & HiN & _).
  destruct (lookup_lt_is_Some_2 (semaphores (world s)) (Z.to_nat i))
    as [sem Hs]; [lia|].
  destruct (Hsem _ _ Hs) as [_ Hb].
  assert (forwards_running i s <= permits_held (Z.to_nat i) s)%nat; [|lia].
  apply count_tasks_weaken.
  eapply Forall_impl; [exact Hok|].
  intros [| |r' n' j limiter'| | |]; simpl; try done.
  intros (_ & _ & ->) ->%bool_decide_eq_true.
  rewrite decide_True by lia. by apply bool_decide_eq_true.
Qed.


(* ===================================================================== *)
(** * Admission control switched off and on *)

(** Without a cap the step past the limiter check is always there. *)
Lemma task_step_unlimited cfg (s : System) t r n i o :
  numConnsPerServer cfg = 0 ->
  tasks s !! t = Some (pcSelected r n i) ->
  task_step cfg t o s
    = Some {| world := {| proxyState := proxyState (world s);
                          semaphores := semaphores (world s);
                          trace := trace (world s)
                                     ++ [EvServeHTTP (Z.to_nat i) r] |};
              tasks := <[t := pcForwarding r n i None]> (tasks s) |}.
Proof.
  intros Hz Ht. unfold task_step. rewrite Ht.
  unfold advance, bind, AcquireLimiter.
  rewrite decide_False by lia. reflexivity.
Qed.

Lemma unlimited_reachable f h cfg (w0 : World) (s : System) :
  main f = Serving h cfg w0 ->
  numConnsPerServer cfg = 0 ->
  reachable cfg w0 s ->
  semaphores (world s) = []
  /\ Forall (fun e => is_permit_event e = false) (trace (world s)).
Proof.
  intros Hm Hz.
  apply main_Serving in Hm as (_ & _ & _ & _ & _ & _ & _ & _ & Htr & _ & Hn).
  destruct (Hn Hz) as [_ Hsem].
  induction 1 as [|s r _ IH|s t o s' _ IH Hstep]; simpl.
  - by rewrite Hsem, Htr.
  - done.
  - destruct IH as [IHs IHt].
    apply task_step_sound in Hstep.
    inversion Hstep; subst; simpl; try done.
    split; [done|]. apply Forall_app. split; [done|]. by repeat constructor.
Qed.

(** C9. With a cap of 0 [InitProxyState] creates no limiter. In any
    state of the system, whatever the other tasks are doing, a handler
    that has drawn its ticket steps straight into [proxy.ServeHTTP]: the
    step is always enabled, touches no semaphore and leaves [limiter] nil.
    No reachable state has a semaphore or an acquire or release in its
    trace, and a handler run on its own never gets stuck. *)
Theorem cap_zero_unlimited (f : Flags) cfg (w0 : World)
    (Hmain : main f = Serving ProxyH cfg w0)
    (Hcap : numConnsPerServer cfg = 0) :
  (connLimiters (proxyState w0) = [] /\ semaphores w0 = [])
  /\ (forall (s : System) t r n i o,
        tasks s !! t = Some (pcSelected r n i) ->
        task_step cfg t o s
          = Some {| world := {| proxyState := proxyState (world s);
                                semaphores := semaphores (world s);
                                trace := trace (world s)
                                           ++ [EvServeHTTP (Z.to_nat i) r] |};
                    tasks := <[t := pcForwarding r n i None]> (tasks s) |})
  /\ (forall s : System, reachable cfg w0 s ->
        semaphores (world s) = []
        /\ Forall (fun e => is_permit_event e = false) (trace (world s)))
  /\ (forall o r (w : World), (ProxyRequestHandler cfg o r w).2 <> Blocked).
Proof.
  split; [|split_and!].
  - apply main_Serving in Hmain
      as (_ & _ & _ & _ & _ & _ & _ & _ & _ & _ & Hn). by apply Hn.
  - intros. by apply task_step_unlimited.
  - intros s Hs. by eapply unlimited_reachable.
  - intros o r w. unfold ProxyRequestHandler, bind.
    rewrite SelectBackend_spec. case_decide; [done|].
    unfold SelectProxy, AcquireLimiter, ReleaseLimiter, ServeHTTP_call,
      ServeHTTP_end, index, bind, read_proxyState, emit, ret, panic.
    rewrite !decide_False by lia. simpl.
    destruct o; repeat (case_match; simpl in *; simplify_eq); done.
Qed.

(** With a cap, the step past the limiter of a task that has drawn its
    ticket is an acquisition from the limiter of its backend. *)
Lemma task_step_acquire cfg (w0 : World) (s : System) t r n i o :
  numConnsPerServer cfg <> 0 ->
  permit_invariant (numConnsPerServer cfg) w0 s ->
  tasks s !! t = Some (pcSelected r n i) ->
  exists sem,
    semaphores (world s) !! Z.to_nat i = Some sem
    /\ semaphore.size sem = numConnsPerServer cfg
    /\ 0 <= semaphore.cur sem
    /\ task_step cfg t o s
       = if decide (1 <= numConnsPerServer cfg - semaphore.cur sem)
         then Some
           {| world :=
                {| proxyState := proxyState (world s);
                   semaphores :=
                     <[Z.to_nat i :=
                         {| semaphore.size := numConnsPerServer cfg;
                            semaphore.cur := semaphore.cur sem + 1 |}]>
                       (semaphores (world s));
                   trace := (trace (world s) ++ [EvAcquire (Z.to_nat i)])
                              ++ [EvServeHTTP (Z.to_nat i) r] |};
              tasks := <[t := pcForwarding r n i (Some (Z.to_nat i))]>
                         (tasks s) |}
         else None.
Proof.
  intros Hc (Hp & Hcl & Hlen & Hsem & Hok) Ht.
  pose proof (Forall_lookup_1 _ _ _ _ Hok Ht) as [Hi HiN]. simpl in *.
  destruct (lookup_lt_is_Some_2 (semaphores (world s)) (Z.to_nat i))
    as [sem Hs]; [lia|].
  destruct (Hsem _ _ Hs) as [Hsz Hb].
  exists sem. split_and!; [done | done | lia |].
  unfold task_step. rewrite Ht.
  unfold advance, bind, AcquireLimiter.
  rewrite decide_True by done.
  unfold bind, read_proxyState, index, limiter_Acquire, semaphore.Acquire.
  rewrite Hcl, lookup_seq_lt by done. simpl. rewrite Hs, Hsz.
  by case_decide.
Qed.


Lemma negative_cap_reachable f h cfg (w0 : World) (s : System) :
  main f = Serving h cfg w0 ->
  numConnsPerServer cfg < 0 ->
  reachable cfg w0 s ->
  Forall (fun p => past_limiter p = false) (tasks s).
Proof.
  intros Hm Hneg. induction 1 as [|s r _ IH|s t o s' Hr IH Hstep]; simpl.
  - constructor.
  - apply Forall_app. split; [done|]. by repeat constructor.
  - destruct (permit_invariant_reachable f h cfg w0 s)
      as (_ & _ & _ & Hsem & _); [done | lia | done |].
    pose proof (fun i p => Forall_lookup_1 _ _ i p IH) as IH'.
    apply task_step_sound in Hstep.
    inversion Hstep as
      [ | | r num idx Ht Hz
      | r num idx l sem Ht _ Hl Hs Hfree
      | r num idx limiter Ht
      | r num idx limiter Ht Hz
      | r num idx l sem Ht _ Hs Hheld
      | r num idx l sem Ht _ Hs Hover
      | ]; subst; simpl;
      try (by apply Forall_insert).
    + lia.
    + destruct (Hsem _ _ Hs) as [Hsz Hb]. lia.
    + by specialize (IH' _ _ Ht).
    + by specialize (IH' _ _ Ht).
    + by specialize (IH' _ _ Ht).
Qed.

(** C10. For every nonzero cap [c], negative ones included,
    [InitProxyState] creates for each backend a semaphore of size [c],
    and in every reachable state the step past the limiter check of a
    handler with backend index [i] is an acquisition of one permit from
    semaphore [i]: enabled exactly when [1 <= c - cur]. With [c < 0] that
    is never the case: no task ever gets to forwarding, and a task
    that has drawn its ticket has no step. *)
Theorem nonzero_cap_limits (f : Flags) cfg (w0 : World)
    (Hmain : main f = Serving ProxyH cfg w0)
    (Hcap : numConnsPerServer cfg <> 0) :
  let c := numConnsPerServer cfg in
  let N := length (flag_Args f) in
  (connLimiters (proxyState w0) = seq 0 N
   /\ semaphores w0 = replicate N (semaphore.NewWeighted c))
  /\ (forall (s : System) t r n i o,
        reachable cfg w0 s ->
        tasks s !! t = Some (pcSelected r n i) ->
        exists sem,
          semaphores (world s) !! Z.to_nat i = Some sem
          /\ semaphore.size sem = c
          /\ 0 <= semaphore.cur sem
          /\ task_step cfg t o s
             = if decide (1 <= c - semaphore.cur sem)
               then Some
                 {| world :=
                      {| proxyState := proxyState (world s);
                         semaphores :=
                           <[Z.to_nat i :=
                               {| semaphore.size := c;
                                  semaphore.cur := semaphore.cur sem + 1 |}]>
                             (semaphores (world s));
                         trace :=
                           (trace (world s) ++ [EvAcquire (Z.to_nat i)])
                             ++ [EvServeHTTP (Z.to_nat i) r] |};
                    tasks := <[t := pcForwarding r n i (Some (Z.to_nat i))]>
                               (tasks s) |}
               else None)
  /\ (c < 0 ->
      forall s : System, reachable cfg w0 s ->
        Forall (fun p => past_limiter p = false) (tasks s)
        /\ forall t r n i o,
             tasks s !! t = Some (pcSelected r n i) ->
             task_step cfg t o s = None).
Proof.
  intros c N. split; [|split].
  - apply main_Serving in Hmain
      as (_ & _ & _ & _ & _ & _ & _ & _ & _ & Hn & _). by apply Hn.
  - intros s t r n i o Hr Ht.
    eapply task_step_acquire; [done | | done].
    by eapply permit_invariant_reachable.
  - intros Hneg s Hr. split; [by eapply negative_cap_reachable|].
    intros t r n i o Ht.
    destruct (task_step_acquire cfg w0 s t r n i o)
      as (sem & _ & _ & Hcur & ->); [done | | done |].
    + by eapply permit_invariant_reachable.
    + apply decide_False. fold c. lia.
Qed.


(* ===================================================================== *)
(** * The buffer pool *)

Lemma make_bytes_spec n :
  0 <= n ->
  BufferPool.make_bytes n = Some (replicate (Z.to_nat n) Byte.x00).
Proof. intros. unfold BufferPool.make_bytes. by rewrite decide_False by lia. Qed.

(** A [Get] that finds nothing to reuse allocates a buffer of exactly the
    configured size. *)
Lemma Get_fresh cfg pick bufPool :
  0 <= poolBufSize cfg ->
  (BufferPool.sync_Pool_Get pick (BufferPool.pool bufPool)).1 = None ->
  exists bufPool',
    BufferPool.Get cfg pick bufPool
      = Some (replicate (Z.to_nat (poolBufSize cfg)) Byte.x00, bufPool')
    /\ BufferPool.pool bufPool' = BufferPool.pool bufPool.
Proof.
  intros Hsz Hnone. unfold BufferPool.Get.
  destruct (BufferPool.sync_Pool_Get pick (BufferPool.pool bufPool))
    as [[buf|] p'] eqn:Hg; [done|].
  assert (p' = BufferPool.pool bufPool) as ->.
  { unfold BufferPool.sync_Pool_Get in Hg.
    repeat case_match; by simplify_eq. }
  rewrite make_bytes_spec by done.
  destruct (beVerbose cfg); eauto.
Qed.

Lemma Get_full_size cfg pick bufPool :
  0 <= poolBufSize cfg ->
  Forall (BufferPool.full_size cfg) (BufferPool.pool bufPool) ->
  exists buf bufPool',
    BufferPool.Get cfg pick bufPool = Some (buf, bufPool')
    /\ BufferPool.full_size cfg buf
    /\ Forall (BufferPool.full_size cfg) (BufferPool.pool bufPool').
Proof.
  intros Hsz Hall.
  destruct (BufferPool.sync_Pool_Get pick (BufferPool.pool bufPool))
    as [[buf|] p'] eqn:Hg.
  - unfold BufferPool.Get. rewrite Hg.
    unfold BufferPool.sync_Pool_Get in Hg.
    destruct pick as [k|]; [|done].
    destruct (BufferPool.pool bufPool !! k) as [b|] eqn:Hk; [|done].
    simplify_eq. do 2 eexists. split_and!; [done| |]; simpl.
    + by eapply (Forall_lookup_1 _ _ _ _ Hall).
    + by apply Forall_delete.
  - destruct (Get_fresh cfg pick bufPool) as (bufPool' & -> & Hp);
      [done | by rewrite Hg |].
    do 2 eexists. split_and!; [done| |by rewrite Hp].
    unfold BufferPool.full_size. rewrite length_replicate. lia.
Qed.

Lemma run_full_size cfg h bufPool :
  0 <= poolBufSize cfg ->
  Forall (BufferPool.put_full_size cfg) h ->
  Forall (BufferPool.full_size cfg) (BufferPool.pool bufPool) ->
  exists bufs bufPool',
    BufferPool.run cfg h bufPool = Some (bufs, bufPool')
    /\ Forall (BufferPool.full_size cfg) bufs.
Proof.
  intros Hsz Hh. revert bufPool.
  induction Hh as [|o h Ho _ IH]; intros bufPool Hpool; simpl.
  - by do 2 eexists.
  - destruct o as [pick|buf|k]; simpl in *.
    + destruct (Get_full_size cfg pick bufPool)
        as (buf & bufPool' & -> & Hbuf & Hpool'); [done..|].
      destruct (IH bufPool' Hpool') as (bufs & bufPool'' & -> & Hbufs).
      do 2 eexists. split; [done|]. by constructor.
    + apply IH. simpl. by constructor.
    + apply IH. simpl. by apply Forall_delete.
Qed.

(** C6, as the code has it. On a pool as [NewProxyBufferPool] makes it,
    configured with a buffer size above 0 (the condition under which
    [InitProxyState] installs a pool), every history of [Get] and [Put]
    calls and of entries dropped by the runtime in which no [Put] hands
    in a buffer shorter than the configured size runs without a panic,
    and no [Get] of it returns a buffer shorter than the configured size.
    Whatever the pool holds, a [Get] for which the cache yields nothing
    succeeds with a fresh buffer of exactly the configured size. *)
Theorem pool_buffers_full_size cfg (h : list BufferPool.op)
    (Hsize : 0 < poolBufSize cfg)
    (Hput : Forall (BufferPool.put_full_size cfg) h) :
  (exists bufs bufPool',
     BufferPool.run cfg h BufferPool.NewProxyBufferPool
       = Some (bufs, bufPool')
     /\ Forall (fun buf => poolBufSize cfg <= Z.of_nat (length buf)) bufs)
  /\ (forall pick bufPool,
       (BufferPool.sync_Pool_Get pick (BufferPool.pool bufPool)).1 = None ->
       exists bufPool',
         BufferPool.Get cfg pick bufPool
           = Some (replicate (Z.to_nat (poolBufSize cfg)) Byte.x00, bufPool')).
Proof.
  split.
  - apply run_full_size; [lia | done | constructor].
  - intros pick bufPool Hnone.
    destruct (Get_fresh cfg pick bufPool) as (bufPool' & ? & _);
      [lia | done | eauto].
Qed.


(* ===================================================================== *)
(** * Schedules *)

Lemma run_reachable cfg (w0 : World) sched (s s' : System) :
  reachable cfg w0 s -> run cfg sched s = Some s' -> reachable cfg w0 s'.
Proof.
  revert s. induction sched as [|a sched IH]; intros s Hr; simpl.
  - by intros [= <-].
  - destruct a as [r|t o].
    + apply IH. by constructor.
    + destruct (task_step cfg t o s) as [s1|] eqn:Hstep; [|done].
      apply IH. by econstructor.
Qed.

Ltac use_equations :=
  repeat match goal with
    | H : ?x = Some _ |- context [?x] => rewrite H
    | H : ?x = None |- context [?x] => rewrite H
    | H : ?x = left _ |- context [?x] => rewrite H
    | H : ?x = right _ |- context [?x] => rewrite H
    end.

(** ** Permits that are not given back

    No step of the system brings a leaked permit back. *)
Lemma leaked_step cfg (w0 : World) t (s s' : System) l :
  numConnsPerServer cfg <> 0 ->
  permit_invariant (numConnsPerServer cfg) w0 s ->
  step cfg t s s' ->
  leaked l s <= leaked l s'.
Proof.
  intros Hc Hinv Hstep. pose proof Hinv as (Hp & Hcl & Hlen & Hsem & Hok).
  destruct s as [w ts]. unfold leaked. simpl in *.
  inversion Hstep as
    [ r num n idx Ht Hnum Hn Hn0 Hidx Hsome
    | r num Ht Hnum
    | r num idx Ht Hz
    | r num idx l0 sem Ht _ Hl Hs Hfree
    | r num idx limiter Ht
    | r num idx limiter Ht Hz
    | r num idx l0 sem Ht _ Hs Hheld
    | r num idx l0 sem Ht _ Hs Hover
    | p Ht Hnot ]; subst; simpl in *; try done;
    try (exfalso; by eapply (release_panic_impossible _ w0
                               {| world := w; tasks := ts |})).
  - destruct (semaphores w !! l); [|done].
    rewrite (permits_held_insert l w _ ts t _ _ Ht). simpl. lia.
  - destruct (semaphores w !! l); [|done].
    rewrite (permits_held_insert l w _ ts t _ _ Ht). simpl. lia.
  - destruct (decide (l = l0)) as [->|Hne].
    + rewrite Hs, list_lookup_insert_eq by by eapply lookup_lt_Some.
      rewrite (permits_held_insert l0 w _ ts t _ _ Ht). simpl.
      rewrite bool_decide_eq_true_2 by done. simpl. lia.
    + rewrite list_lookup_insert_ne by done.
      destruct (semaphores w !! l); [|done].
      rewrite (permits_held_insert l w _ ts t _ _ Ht). simpl.
      rewrite bool_decide_eq_false_2 by done. simpl. lia.
  - destruct (semaphores w !! l); [|done].
    rewrite (permits_held_insert l w _ ts t _ _ Ht). simpl. lia.
  - destruct (decide (l = l0)) as [->|Hne].
    + rewrite Hs, list_lookup_insert_eq by by eapply lookup_lt_Some.
      rewrite (permits_held_insert l0 w _ ts t _ _ Ht). simpl.
      rewrite bool_decide_eq_true_2 by done. simpl. lia.
    + rewrite list_lookup_insert_ne by done.
      destruct (semaphores w !! l); [|done].
      rewrite (permits_held_insert l w _ ts t _ _ Ht). simpl.
      rewrite bool_decide_eq_false_2 by done. simpl. lia.
  - destruct (semaphores w !! l); [|done].
    rewrite (permits_held_insert l w _ ts t _ _ Ht). simpl.
    destruct (holds_permit l p); simpl; lia.
Qed.

Lemma leaked_run f h cfg (w0 : World) sched (s s' : System) l :
  main f = Serving h cfg w0 ->
  numConnsPerServer cfg <> 0 ->
  reachable cfg w0 s ->
  run cfg sched s = Some s' ->
  leaked l s <= leaked l s'.
Proof.
  intros Hm Hc. revert s.
  induction sched as [|a sched IH]; intros s Hr; simpl.
  - intros [= <-]. lia.
  - destruct a as [r|t o].
    + intros Hrun. etrans; [|apply (IH (accept r s)); [by constructor|done]].
      unfold leaked, permits_held. simpl.
      destruct (semaphores (world s) !! l); [|done].
      rewrite count_tasks_app. simpl. lia.
    + destruct (task_step cfg t o s) as [s1|] eqn:Hstep; [|done].
      intros Hrun. etrans; [|apply (IH s1); [by econstructor|done]].
      eapply leaked_step; [done | | by eapply task_step_sound].
      by eapply permit_invariant_reachable.
Qed.

(** Once every permit of a limiter is leaked, no task holds a permit of
    it in any later state: nothing is forwarded to that backend again. *)
Lemma all_leaked_forever f h cfg (w0 : World) sched (s s' : System) l :
  main f = Serving h cfg w0 ->
  0 < numConnsPerServer cfg ->
  reachable cfg w0 s ->
  leaked l s = numConnsPerServer cfg ->
  run cfg sched s = Some s' ->
  permits_held l s' = 0%nat.
Proof.
  intros Hm Hc Hr Hall Hrun.
  pose proof (leaked_run f h cfg w0 sched s s' l Hm ltac:(lia) Hr Hrun) as Hle.
  destruct (permit_invariant_reachable f h cfg w0 s')
    as (_ & _ & _ & Hsem & _); [done | lia | by eapply run_reachable |].
  unfold leaked in Hle at 2.
  destruct (semaphores (world s') !! l) as [sem|] eqn:Hs; [|lia].
  destruct (Hsem _ _ Hs) as [_ Hb]. lia.
Qed.

(** Evaluates the steps a task takes on its own; [Ht], [Hself] and
    [Hover] are the facts about the task list the steps need. *)
Ltac run_steps Ht Hself Hover :=
  repeat (cbn [run replicate tasks world];
          unfold task_step, advance, bind, SelectProxy, AcquireLimiter,
            ReleaseLimiter, ServeHTTP_call, ServeHTTP_end,
            limiter_Acquire, limiter_Release, index, bind,
            read_proxyState, emit, ret, panic;
          rewrite ?SelectBackend_spec;
          cbn [tasks world proxyState semaphores trace proxies
               connLimiters requestNum with_requestNum fst snd];
          rewrite ?Hself, ?Ht, ?Hover;
          use_equations).

(** Runs [k] steps of a task on its own and compares the outcome with
    the goal. *)
Ltac run_alone k Ht Hself Hover Hother :=
  solve
    [ exists k; eexists; split;
      [ run_steps Ht Hself Hover; reflexivity
      | cbn [tasks world]; split_and!;
        [ reflexivity
        | intros t' Hne; rewrite ?Hover; by apply Hother
        | by rewrite ?Hover, Hself ] ] ].

(** ** The two views of the handler agree

    A task that runs from the entry of the handler with no step of
    another task in between does what [ProxyRequestHandler] does: it ends
    returned or aborted in the same world, or it is stuck at the limiter
    in the same world. *)
Lemma task_alone cfg (s : System) t r o :
  tasks s !! t = Some (pcStart r) ->
  let '(w', x) := ProxyRequestHandler cfg o r (world s) in
  exists k s',
    run cfg (replicate k (Step t o)) s = Some s'
    /\ world s' = w'
    /\ (forall t', t' <> t -> tasks s' !! t' = tasks s !! t')
    /\ match x with
       | Ret _ => tasks s' !! t = Some pcDone
       | Panic => tasks s' !! t = Some pcAborted
       | Blocked => task_step cfg t o s' = None
       end.
Proof.
  intros Ht.
  assert (t < length (tasks s))%nat as Hlt by by eapply lookup_lt_Some.
  destruct (ProxyRequestHandler cfg o r (world s)) as [w' x] eqn:Hh.
  assert (forall p, <[t := p]> (tasks s) !! t = Some p) as Hself
    by (intros; by apply list_lookup_insert_eq).
  assert (forall p q, <[t := q]> (<[t := p]> (tasks s)) = <[t := q]> (tasks s))
    as Hover by (intros; apply list_insert_insert_eq).
  assert (forall p t', t' <> t -> <[t := p]> (tasks s) !! t' = tasks s !! t')
    as Hother by (intros; by apply list_lookup_insert_ne).
  unfold ProxyRequestHandler, bind in Hh.
  rewrite SelectBackend_spec in Hh.
  unfold SelectProxy, AcquireLimiter, ReleaseLimiter, ServeHTTP_call,
    ServeHTTP_end, limiter_Acquire, limiter_Release, index, bind,
    read_proxyState, emit, ret, panic in Hh.
  simpl in Hh.
  repeat (case_match; simpl in *; simplify_eq).
  all: try first [ run_alone 1%nat Ht Hself Hover Hother
                 | run_alone 2%nat Ht Hself Hover Hother
                 | run_alone 3%nat Ht Hself Hover Hother
                 | run_alone 4%nat Ht Hself Hover Hother ].
  (* stuck at the limiter: one step, and no further one *)
  exists 1%nat. eexists. split; [run_steps Ht Hself Hover; reflexivity|].
  cbn [tasks world]. split_and!; [reflexivity | by apply Hother |].
  run_steps Ht Hself Hover. reflexivity.
Qed.

(* ===================================================================== *)
(** * More on start-up *)

Lemma InitProxyState_loop_is_Some cfg args (w : World) :
  is_Some (InitProxyState_loop cfg args w)
  <-> Forall (fun a => is_Some (url_Parse a)) args.
Proof.
  split; [|apply InitProxyState_loop_parses].
  revert w. induction args as [|a args IH]; intros w H; [constructor|].
  simpl in H. unfold InitProxyState_body, NewProxy in H.
  destruct (url_Parse a) as [u|] eqn:Hu; [|by destruct H].
  constructor; [by rewrite Hu|].
  revert H. case_decide; apply IH.
Qed.

Lemma InitProxyState_loop_None cfg args (w : World) :
  InitProxyState_loop cfg args w = None ->
  Exists (fun a => url_Parse a = None) args.
Proof.
  revert w. induction args as [|a args IH]; intros w H; [done|].
  simpl in H. unfold InitProxyState_body, NewProxy in H.
  destruct (url_Parse a) as [u|] eqn:Hu; [|by left].
  right. revert H. case_decide; apply IH.
Qed.

(** What the loop of [InitProxyState] appends: one proxy per argument, in
    the order of the arguments, after the proxies that were there. *)
Lemma InitProxyState_loop_proxies cfg args (w w' : World) :
  InitProxyState_loop cfg args w = Some w' ->
  (forall j, (j < length (proxies (proxyState w)))%nat ->
     proxies (proxyState w') !! j = proxies (proxyState w) !! j)
  /\ (forall i a, args !! i = Some a ->
      exists u,
        url_Parse a = Some u
        /\ proxies (proxyState w')
             !! (length (proxies (proxyState w)) + i)%nat
           = Some {| target := u; FlushInterval := -1;
                     BufferPool :=
                       if decide (0 < poolBufSize cfg)
                       then Some (length (proxies (proxyState w)) + i)%nat
                       else None |}).
Proof.
  revert w. induction args as [|a args IH]; intros w H; simpl in H.
  - inversion H; subst. split; [done|]. by intros i a [=].
  - destruct (InitProxyState_body cfg a w) as [w1|] eqn:Hb; [|discriminate].
    apply IH in H as [Hpre Hnew].
    unfold InitProxyState_body, NewProxy in Hb.
    destruct (url_Parse a) as [u|] eqn:Hu; [|discriminate].
    assert (proxies (proxyState w1)
            = proxies (proxyState w)
                ++ [{| target := u; FlushInterval := -1;
                       BufferPool :=
                         if decide (0 < poolBufSize cfg)
                         then Some (length (proxies (proxyState w)))
                         else None |}]) as Hw1.
    { revert Hb. simpl. repeat case_decide; intros [= <-]; simpl; done. }
    clear Hb. split.
    + intros j Hj. rewrite Hpre by (rewrite Hw1, length_app; simpl; lia).
      rewrite Hw1. by apply lookup_app_l.
    + intros [|i] b Hb; simpl in Hb.
      * simplify_eq. exists u. split; [done|].
        rewrite Nat.add_0_r, Hpre by (rewrite Hw1, length_app; simpl; lia).
        rewrite Hw1, lookup_app_r by done. by rewrite Nat.sub_diag.
      * destruct (Hnew i b Hb) as (u' & Hu' & Hl). exists u'. split; [done|].
        rewrite Hw1, length_app in Hl. simpl in Hl.
        replace (length (proxies (proxyState w)) + S i)%nat
          with (length (proxies (proxyState w)) + 1 + i)%nat by lia.
        exact Hl.
Qed.

Lemma main_cases (f : Flags) :
  match main f with
  | Exited code =>
    (code = 0 /\ flag_version f = true)
    \/ (code = 1 /\ flag_version f = false /\ flag_Args f = [])
  | StartupPanic =>
    flag_version f = false /\ flag_Args f <> []
    /\ Exists (fun a => url_Parse a = None) (flag_Args f)
  | Serving h cfg w =>
    flag_version f = false /\ flag_Args f <> []
    /\ Forall (fun a => is_Some (url_Parse a)) (flag_Args f)
    /\ h = (if decide (flag_redirect f = 0) then ProxyH else RedirectH)
  end.
Proof.
  destruct (main f) as [code| |h cfg w] eqn:Hm.
  - unfold main, ParseArguments in Hm. simpl in Hm.
    destruct (flag_version f); [left; by simplify_eq|].
    destruct (decide (length (flag_Args f) = 0%nat)) as [E|_].
    + right. simplify_eq. split_and!; try done.
      by destruct (flag_Args f).
    + repeat case_match; simplify_eq.
  - assert (flag_version f = false /\ flag_Args f <> []
            /\ exists cfg, InitProxyState cfg (flag_Args f) zero_World = None)
      as (Hv & Hne & cfg & Hi).
    { unfold main in Hm.
      destruct (ParseArguments f) as [|cfg] eqn:Hp; [discriminate|].
      apply ParseArguments_inr in Hp as (? & ? & _).
      split_and!; try done. exists cfg.
      destruct (InitProxyState cfg (flag_Args f) zero_World); [|done].
      by case_decide. }
    split_and!; try done.
    unfold InitProxyState in Hi. by eapply InitProxyState_loop_None.
  - pose proof Hm as Hm'.
    apply main_Serving in Hm' as (Hv & Hne & _ & _ & Hrc & Hh & _).
    split_and!; try done; [|by rewrite <- Hrc].
    unfold main in Hm.
    destruct (ParseArguments f) as [|cfg'] eqn:Hp; [discriminate|].
    destruct (InitProxyState cfg' (flag_Args f) zero_World) as [w'|] eqn:Hi;
      [|discriminate].
    eapply InitProxyState_loop_is_Some. unfold InitProxyState in Hi.
    by rewrite Hi.
Qed.

Lemma main_Serving_listenPort f h cfg (w : World) :
  main f = Serving h cfg w -> listenPort cfg = flag_port f.
Proof.
  unfold main, ParseArguments, SetOpenFilesLimit. simpl.
  repeat case_match; intros; simplify_eq; done.
Qed.

Lemma parses_not_Exists (args : list string) :
  Forall (fun a => is_Some (url_Parse a)) args ->
  Exists (fun a => url_Parse a = None) args -> False.
Proof.
  intros Hall Hex. apply Exists_exists in Hex as (a & Hin & Ha).
  rewrite Forall_forall in Hall. destruct (Hall a Hin) as [u Hu]. congruence.
Qed.

(** Settles one of the facts about how the process ends, the case of
    [main] and what is known of the command line being in the context. *)
Ltac outcome_facts :=
  try (split; intros ?); intros;
  repeat match goal with
         | H : _ /\ _ |- _ => destruct H
         | H : exists _, _ |- _ => destruct H
         | H : _ \/ _ |- _ => destruct H
         end;
  simplify_eq; try congruence; try tauto; eauto 10.

(** X1. How the process of [main] ends, with its last line
    [log.Fatal(http.ListenAndServe(...))] included, is decided by the
    command line and by what [ListenAndServe] does on the configured
    port. For a command line that [flag.Parse] accepts, with the flag
    values [f], the process
    - exits with status 0 exactly when the version is asked for;
    - exits with status 1 exactly when the version is not asked for and
      either no backend is given, or every backend parses as a URL and
      [ListenAndServe] returns;
    - dies of the panic of [InitProxyState] exactly when the version is
      not asked for and some backend does not parse;
    - goes on serving exactly when the version is not asked for, there
      is a backend, every backend parses, and [ListenAndServe] does not
      return; the handler is then the proxy handler when the redirect
      code is 0 and the redirect handler when it is not, with the
      configuration and the state [main] has set up.
    [main] has no other outcome. *)
Theorem startup_outcome (ListenAndServe : Z -> listen_outcome) (f : Flags) :
  let out := main_ListenAndServe ListenAndServe f in
  let parses := Forall (fun a => is_Some (url_Parse a)) (flag_Args f) in
  (out = Exit 0 <-> flag_version f = true)
  /\ (out = Exit 1 <->
      flag_version f = false
      /\ (flag_Args f = []
          \/ (parses /\ ListenAndServe (flag_port f) = ListenReturns)))
  /\ (out = InitPanic <-> flag_version f = false /\ ~ parses)
  /\ ((exists h cfg w, out = ServesOn h cfg w) <->
      flag_version f = false /\ flag_Args f <> [] /\ parses
      /\ ListenAndServe (flag_port f) = ListenServes)
  /\ (forall h cfg w, out = ServesOn h cfg w ->
      h = (if decide (flag_redirect f = 0) then ProxyH else RedirectH)
      /\ main f = Serving h cfg w)
  /\ (forall code, out = Exit code -> code = 0 \/ code = 1).
Proof.
  intros out parses. subst out parses. unfold main_ListenAndServe.
  pose proof (main_cases f) as Hcases.
  pose proof (main_Serving_listenPort f) as Hport.
  destruct (main f) as [code| |h cfg w].
  - destruct Hcases as [[-> Hv]|(-> & Hv & Hargs)].
    + split_and!; outcome_facts.
    + assert (Forall (fun a => is_Some (url_Parse a)) (flag_Args f)) as Hall
        by (rewrite Hargs; constructor).
      split_and!; outcome_facts.
  - destruct Hcases as (Hv & Hne & Hex).
    assert (~ Forall (fun a => is_Some (url_Parse a)) (flag_Args f)) as Hnp
      by (intros Hall; exact (parses_not_Exists _ Hall Hex)).
    split_and!; outcome_facts.
  - destruct Hcases as (Hv & Hne & Hall & Hh).
    rewrite (Hport h cfg w eq_refl).
    destruct (ListenAndServe (flag_port f)) eqn:Hl;
      split_and!; outcome_facts.
Qed.

(** X2. When [main] serves, the proxies are the backends of the command
    line in their order: proxy [i] targets the parsed argument [i],
    flushes immediately (flush interval -1), and has a buffer pool of its
    own exactly when the configured buffer size is above 0; and
    [config.proxyStrings] has argument [i] at [i]. *)
Theorem proxies_setup (f : Flags) h cfg (w0 : World) i a
    (Hmain : main f = Serving h cfg w0)
    (Harg : flag_Args f !! i = Some a) :
  exists u,
    url_Parse a = Some u
    /\ proxies (proxyState w0) !! i
       = Some {| target := u; FlushInterval := -1;
                 BufferPool := if decide (0 < flag_bufsize f)
                               then Some i else None |}
    /\ proxyStrings cfg !! i = Some a.
Proof.
  pose proof Hmain as Hm.
  apply main_Serving in Hm as (_ & _ & Hps & _).
  unfold main in Hmain.
  destruct (ParseArguments f) as [|cfg'] eqn:Hp; [discriminate|].
  destruct (InitProxyState cfg' (flag_Args f) zero_World) as [w'|] eqn:Hi;
    [|discriminate].
  assert (cfg' = cfg /\ w' = w0) as [-> ->]
    by (case_decide; by inversion Hmain).
  apply ParseArguments_inr in Hp as (_ & _ & _ & _ & _ & Hbuf).
  unfold InitProxyState in Hi.
  apply InitProxyState_loop_proxies in Hi as [_ Hnew].
  destruct (Hnew i a Harg) as (u & Hu & Hl). simpl in Hl.
  exists u. rewrite Hbuf in Hl. by rewrite Hps.
Qed.

(** X3. [SetOpenFilesLimit] only raises the limit. When [ParseArguments]
    gets to call [Setrlimit], a file-descriptor limit was asked for, the
    soft limit it sets is above the current one and not above the hard
    limit, the hard limit is passed on as it was read, and the soft limit
    is the value asked for, cut down to the hard limit, which is also
    what [config.fdLimit] holds afterwards. *)
Theorem Setrlimit_only_raises (f : Flags) r
    (Hcall : ParseArguments_Setrlimit GetOpenFilesLimit f = Some r) :
  flag_fdlimit f <> 0
  /\ Cur GetOpenFilesLimit < Cur r <= Max r
  /\ Max r = Max GetOpenFilesLimit
  /\ Cur r = Z.min (flag_fdlimit f) (Max GetOpenFilesLimit)
  /\ exists cfg, ParseArguments f = inr cfg /\ fdLimit cfg = Cur r.
Proof.
  unfold ParseArguments_Setrlimit, ParseArguments in *. simpl in *.
  destruct (flag_version f); [discriminate|].
  destruct (decide (length (flag_Args f) = 0%nat)); [discriminate|].
  destruct (decide (flag_fdlimit f <> 0)) as [Hfd|]; [|discriminate].
  unfold SetOpenFilesLimit_Setrlimit in Hcall.
  unfold SetOpenFilesLimit in *. simpl in *.
  destruct (decide (Max GetOpenFilesLimit <= flag_fdlimit f)); simpl in *;
    case_decide; simplify_eq; simpl;
    (split_and!; [done | lia | lia | done | lia | eexists; split; done]).
Qed.

(** X4. [SetOpenFilesLimit] leaves the limit alone exactly when the value
    asked for, cut down to the hard limit, is not above the current soft
    limit. In particular, with the all-zero limit that
    [GetOpenFilesLimit] returns when [Getrlimit] fails, nothing is set
    for any value asked for, and [config.fdLimit] ends up 0. *)
Theorem Setrlimit_skipped (cfg : Config) :
  (SetOpenFilesLimit_Setrlimit GetOpenFilesLimit cfg = None
   <-> Z.min (fdLimit cfg) (Max GetOpenFilesLimit) <= Cur GetOpenFilesLimit)
  /\ (Cur GetOpenFilesLimit = 0 -> Max GetOpenFilesLimit = 0 ->
      0 <= fdLimit cfg ->
      SetOpenFilesLimit_Setrlimit GetOpenFilesLimit cfg = None
      /\ fdLimit (SetOpenFilesLimit cfg) = 0).
Proof.
  unfold SetOpenFilesLimit_Setrlimit, SetOpenFilesLimit.
  split.
  - destruct (decide (Max GetOpenFilesLimit <= fdLimit cfg)); simpl;
      case_decide; split; intros; try done; lia.
  - intros HC HM Hfd.
    destruct (decide (Max GetOpenFilesLimit <= fdLimit cfg)); [|lia].
    simpl. case_decide; [split; [done | lia] | lia].
Qed.

(* ===================================================================== *)
(** * More on the handlers run one after the other *)

Lemma Weighted_eta (sem : semaphore.Weighted) :
  {| semaphore.size := semaphore.size sem; semaphore.cur := semaphore.cur sem |}
  = sem.
Proof. by destruct sem. Qed.

(** A run of the proxy handler whose forward returns, in a world in
    which the limiter of the selected backend has a permit to give. *)
Lemma ProxyRequestHandler_returns cfg r (w : World) sem :
  let t := AddUint32 (requestNum (proxyState w)) 1 in
  let N := Z.of_nat (length (proxies (proxyState w))) in
  let i := Z.to_nat (t mod N) in
  numConnsPerServer cfg <> 0 ->
  0 < N < uint32_modulus ->
  connLimiters (proxyState w) = seq 0 (length (proxies (proxyState w))) ->
  semaphores w !! i = Some sem ->
  0 <= semaphore.cur sem ->
  1 <= semaphore.size sem - semaphore.cur sem ->
  ProxyRequestHandler cfg ServeReturns r w
    = ({| proxyState := proxyState (with_requestNum t w);
          semaphores := semaphores w;
          trace := trace w ++ [EvAcquire i; EvServeHTTP i r; EvRelease i] |},
       Ret tt).
Proof.
  intros t N i Hc HN Hcl Hs Hcur Hfree.
  destruct (SelectBackend_Ret w HN) as [Hsel Hidx]. fold t N in Hsel, Hidx.
  assert (i < length (proxies (proxyState w)))%nat as Hi by (subst i N; lia).
  destruct (lookup_lt_is_Some_2 (proxies (proxyState w)) i Hi) as [proxy Hp].
  assert (i < length (semaphores w))%nat as Hil by by eapply lookup_lt_Some.
  unfold ProxyRequestHandler, bind. rewrite Hsel.
  unfold SelectProxy, AcquireLimiter, ReleaseLimiter, ServeHTTP_call,
    ServeHTTP_end, limiter_Acquire, limiter_Release, index, bind,
    read_proxyState, emit, ret, panic, semaphore.Acquire, semaphore.Release.
  rewrite !decide_True by done. simpl. fold i.
  rewrite Hp. simpl. rewrite Hcl, lookup_seq_lt by done. simpl. rewrite Hs.
  rewrite decide_True by done. simpl. rewrite decide_True by done. simpl.
  rewrite list_lookup_insert_eq by done. simpl.
  rewrite decide_False by lia.
  rewrite list_insert_insert_eq.
  replace (semaphore.cur sem + 1 - 1) with (semaphore.cur sem) by lia.
  rewrite Weighted_eta, list_insert_id by done.
  by rewrite <- !app_assoc, ?Hcl.
Qed.

(** The same without a cap. *)
Lemma ProxyRequestHandler_unlimited cfg o r (w : World) :
  let t := AddUint32 (requestNum (proxyState w)) 1 in
  let N := Z.of_nat (length (proxies (proxyState w))) in
  let i := Z.to_nat (t mod N) in
  numConnsPerServer cfg = 0 ->
  0 < N < uint32_modulus ->
  ProxyRequestHandler cfg o r w
    = ({| proxyState := proxyState (with_requestNum t w);
          semaphores := semaphores w;
          trace := trace w ++ [EvServeHTTP i r] |},
       match o with ServeReturns => Ret tt | ServePanics => Panic end).
Proof.
  intros t N i Hc HN.
  destruct (SelectBackend_Ret w HN) as [Hsel Hidx]. fold t N in Hsel, Hidx.
  assert (i < length (proxies (proxyState w)))%nat as Hi by (subst i N; lia).
  destruct (lookup_lt_is_Some_2 (proxies (proxyState w)) i Hi) as [proxy Hp].
  unfold ProxyRequestHandler, bind. rewrite Hsel.
  unfold SelectProxy, AcquireLimiter, ReleaseLimiter, ServeHTTP_call,
    ServeHTTP_end, index, bind, read_proxyState, emit, ret, panic.
  rewrite !decide_False by lia. simpl. fold i. rewrite Hp.
  by destruct o.
Qed.

(** X5. A forward that returns gives its permit back. In proxy mode with
    a cap, in any world with the lists of start-up in which the limiter
    of the selected backend has a permit free, a handler run whose
    forward returns does exactly three things, in this order: it
    acquires from the limiter of that backend, forwards to that backend,
    and releases the same limiter; it returns, and every semaphore is as
    it was before the run. *)
Theorem forward_round_trip (f : Flags) cfg (w0 w : World) r sem
    (Hmain : main f = Serving ProxyH cfg w0)
    (Hcap : numConnsPerServer cfg <> 0)
    (Hargs : Z.of_nat (length (flag_Args f)) < 2 ^ 32)
    (Hproxies : proxies (proxyState w) = proxies (proxyState w0))
    (Hlimiters : connLimiters (proxyState w) = connLimiters (proxyState w0))
    (Hsem : semaphores w
              !! Z.to_nat (((requestNum (proxyState w) + 1) mod 2 ^ 32)
                           mod Z.of_nat (length (flag_Args f)))
            = Some sem)
    (Hheld : 0 <= semaphore.cur sem)
    (Hfree : 1 <= semaphore.size sem - semaphore.cur sem) :
  let t := (requestNum (proxyState w) + 1) mod 2 ^ 32 in
  let i := Z.to_nat (t mod Z.of_nat (length (flag_Args f))) in
  ProxyRequestHandler cfg ServeReturns r w
    = ({| proxyState := proxyState (with_requestNum t w);
          semaphores := semaphores w;
          trace := trace w ++ [EvAcquire i; EvServeHTTP i r; EvRelease i] |},
       Ret tt).
Proof.
  intros t i.
  apply main_Serving in Hmain
    as (_ & Hne & _ & _ & _ & _ & Hlen & _ & _ & Hn & _).
  destruct (Hn Hcap) as [Hcl _].
  assert (0 < Z.of_nat (length (flag_Args f))) as Hpos
    by (destruct (flag_Args f); [done | simpl; lia]).
  pose proof (ProxyRequestHandler_returns cfg r w sem) as Hrun.
  cbv zeta in Hrun. rewrite Hproxies, Hlen, Hlimiters, Hcl in Hrun.
  apply Hrun; done.
Qed.

Lemma serve_returning cfg reqs (w : World) :
  let N := length (proxies (proxyState w)) in
  0 <= numConnsPerServer cfg ->
  0 < Z.of_nat N < uint32_modulus ->
  (numConnsPerServer cfg <> 0 ->
   connLimiters (proxyState w) = seq 0 N
   /\ semaphores w
      = replicate N (semaphore.NewWeighted (numConnsPerServer cfg))) ->
  Forall (fun ro : Request * serve_outcome => ro.2 = ServeReturns) reqs ->
  (serve_sequentially cfg ProxyH reqs w).2 = replicate (length reqs) (Ret tt)
  /\ semaphores (serve_sequentially cfg ProxyH reqs w).1 = semaphores w.
Proof.
  intros N Hcap HN Hlim Hall. revert w N HN Hlim.
  induction Hall as [|[r o] reqs Ho _ IH]; intros w N HN Hlim; [done|].
  simpl in Ho. subst o. simpl serve_sequentially. unfold handle. simpl.
  assert (exists evs,
    ProxyRequestHandler cfg ServeReturns r w
    = ({| proxyState :=
            proxyState
              (with_requestNum (AddUint32 (requestNum (proxyState w)) 1) w);
          semaphores := semaphores w;
          trace := trace w ++ evs |}, Ret tt)) as [evs ->].
  { destruct (decide (numConnsPerServer cfg = 0)) as [Hz|Hnz].
    - eexists. by apply (ProxyRequestHandler_unlimited cfg ServeReturns).
    - destruct (Hlim Hnz) as [Hcl Hsem]. eexists.
      pose proof (Z.mod_pos_bound
        (AddUint32 (requestNum (proxyState w)) 1) (Z.of_nat N)).
      eapply (ProxyRequestHandler_returns cfg r w
                (semaphore.NewWeighted (numConnsPerServer cfg)));
        try done; simpl; try lia.
      rewrite Hsem. apply lookup_replicate_2. fold N. lia. }
  specialize (IH {| proxyState :=
            proxyState
              (with_requestNum (AddUint32 (requestNum (proxyState w)) 1) w);
          semaphores := semaphores w;
          trace := trace w ++ evs |} HN Hlim).
  destruct (serve_sequentially cfg ProxyH reqs _) as [w2 xs].
  simpl in *. destruct IH as [-> ->]. done.
Qed.

(** X6. Requests served one after the other never wait for each other.
    In proxy mode with any cap of at least 0, if every forward returns,
    every handler run of a sequence served from start-up returns: none
    is stuck at a limiter and none panics; and afterwards every
    semaphore is as start-up left it. *)
Theorem sequential_forwards_return (f : Flags) cfg (w0 : World) reqs
    (Hmain : main f = Serving ProxyH cfg w0)
    (Hcap : 0 <= numConnsPerServer cfg)
    (Hargs : Z.of_nat (length (flag_Args f)) < 2 ^ 32)
    (Hreturn : Forall (fun ro : Request * serve_outcome =>
                         ro.2 = ServeReturns) reqs) :
  (serve_sequentially cfg ProxyH reqs w0).2 = replicate (length reqs) (Ret tt)
  /\ semaphores (serve_sequentially cfg ProxyH reqs w0).1 = semaphores w0.
Proof.
  apply main_Serving in Hmain
    as (_ & Hne & _ & _ & _ & _ & Hlen & _ & _ & Hn & _).
  apply serve_returning; try done.
  - rewrite Hlen. unfold uint32_modulus.
    destruct (flag_Args f); [done | simpl in *; lia].
  - intros Hnz. rewrite Hlen. by apply Hn.
Qed.

Lemma serve_redirects cfg reqs (w : World) :
  let N := Z.of_nat (length (proxies (proxyState w))) in
  let T := requestNum (proxyState w) in
  0 < N < uint32_modulus ->
  length (proxyStrings cfg) = length (proxies (proxyState w)) ->
  100 <= redirectCode cfg <= 999 ->
  exists evs,
    (serve_sequentially cfg RedirectH reqs w).2
      = replicate (length reqs) (Ret tt)
    /\ trace (serve_sequentially cfg RedirectH reqs w).1 = trace w ++ evs
    /\ semaphores (serve_sequentially cfg RedirectH reqs w).1 = semaphores w
    /\ length evs = length reqs
    /\ forall (k : nat) (ro : Request * serve_outcome),
         reqs !! k = Some ro ->
         exists B,
           proxyStrings cfg
             !! Z.to_nat (((T + 1 + Z.of_nat k) mod 2 ^ 32) mod N) = Some B
           /\ evs !! k
              = Some (EvRedirect (B +:+ URL_String ro.1) (redirectCode cfg)).
Proof.
  revert w. induction reqs as [|[r o] reqs IH]; intros w N T HN Hps Hcode.
  - exists []. simpl. rewrite app_nil_r. by split_and!.
  - simpl serve_sequentially. unfold handle. simpl.
    set (t := AddUint32 T 1).
    assert (0 <= t mod N < N) as Hidx by (apply Z.mod_pos_bound; lia).
    destruct (lookup_lt_is_Some_2 (proxyStrings cfg) (Z.to_nat (t mod N)))
      as [B HB]; [rewrite Hps; subst N; lia|].
    rewrite (RedirectHandler_spec cfg r w B);
      [ | rewrite uint32_small; fold N; lia
        | rewrite uint32_small by (fold N; lia); exact HB
        | exact Hcode ].
    fold T. fold t.
    set (w1 := {| proxyState := proxyState (with_requestNum t w);
                  semaphores := semaphores w;
                  trace := trace w
                           ++ [EvRedirect (B +:+ URL_String r)
                                 (redirectCode cfg)] |}).
    destruct (IH w1) as (evs & Hres & Htr & Hsem & Hlen & Hev); [done..|].
    destruct (serve_sequentially cfg RedirectH reqs w1) as [w2 xs].
    simpl in *.
    exists (EvRedirect (B +:+ URL_String r) (redirectCode cfg) :: evs).
    split_and!.
    + by rewrite Hres.
    + by rewrite Htr, <- app_assoc.
    + done.
    + simpl. by rewrite Hlen.
    + intros [|k] ro Hk; simpl in Hk.
      * simplify_eq. exists B. split; [|done].
        rewrite Z.add_0_r. exact HB.
      * destruct (Hev k ro Hk) as (B' & HB' & Hk'). exists B'.
        split; [|done]. fold N in HB'.
        replace ((T + 1 + Z.of_nat (S k)) mod 2 ^ 32)
          with ((t + 1 + Z.of_nat k) mod 2 ^ 32); [done|].
        subst t. unfold AddUint32, uint32, uint32_modulus.
        replace ((T + 1) mod 2 ^ 32 + 1 + Z.of_nat k)
          with ((T + 1) mod 2 ^ 32 + (1 + Z.of_nat k)) by lia.
        rewrite Zplus_mod_idemp_l. f_equal. lia.
Qed.


(* ===================================================================== *)
(** * More on the concurrent handlers *)

Lemma reachable_lists cfg (w0 : World) (s : System) :
  reachable cfg w0 s ->
  proxies (proxyState (world s)) = proxies (proxyState w0)
  /\ connLimiters (proxyState (world s)) = connLimiters (proxyState w0).
Proof.
  induction 1 as [|s r _ IH|s t o s' _ IH Hstep]; [done | done |].
  apply task_step_ticket in Hstep as (Hp & Hc & _).
  destruct IH. split; congruence.
Qed.

Lemma task_step_start cfg (s : System) t r o :
  let num := AddUint32 (requestNum (proxyState (world s))) 1 in
  let N := Z.of_nat (length (proxies (proxyState (world s)))) in
  0 < N < uint32_modulus ->
  tasks s !! t = Some (pcStart r) ->
  task_step cfg t o s
    = Some {| world := with_requestNum num (world s);
              tasks := <[t := pcSelected r num (num mod N)]> (tasks s) |}.
Proof.
  intros num N HN Ht.
  destruct (SelectBackend_Ret (world s) HN) as [Hsel Hidx].
  fold num N in Hsel, Hidx.
  destruct (lookup_lt_is_Some_2 (proxies (proxyState (world s)))
              (Z.to_nat (num mod N))) as [proxy Hp]; [subst N; lia|].
  unfold task_step. rewrite Ht. unfold advance, bind. rewrite Hsel.
  unfold SelectProxy, bind, read_proxyState, index. simpl. by rewrite Hp.
Qed.

Lemma task_step_release cfg (w0 : World) (s : System) t r n i limiter o :
  numConnsPerServer cfg <> 0 ->
  permit_invariant (numConnsPerServer cfg) w0 s ->
  tasks s !! t = Some (pcForwarded r n i limiter) ->
  exists sem,
    semaphores (world s) !! Z.to_nat i = Some sem
    /\ 1 <= semaphore.cur sem
    /\ task_step cfg t o s
       = Some
           {| world :=
                {| proxyState := proxyState (world s);
                   semaphores :=
                     <[Z.to_nat i :=
                         {| semaphore.size := semaphore.size sem;
                            semaphore.cur := semaphore.cur sem - 1 |}]>
                       (semaphores (world s));
                   trace := trace (world s) ++ [EvRelease (Z.to_nat i)] |};
              tasks := <[t := pcDone]> (tasks s) |}.
Proof.
  intros Hc (Hp & Hcl & Hlen & Hsem & Hok) Ht.
  pose proof (Forall_lookup_1 _ _ _ _ Hok Ht) as (Hi & HiN & Hlim).
  simpl in *. rewrite decide_True in Hlim by done. subst limiter.
  destruct (lookup_lt_is_Some_2 (semaphores (world s)) (Z.to_nat i))
    as [sem Hs]; [lia|].
  destruct (Hsem _ _ Hs) as [Hsz Hb].
  assert (0 < permits_held (Z.to_nat i) s)%nat as Hheld.
  { eapply count_tasks_lookup_pos; [exact Ht|]. simpl.
    by apply bool_decide_eq_true. }
  exists sem. split_and!; [done | lia |].
  unfold task_step. rewrite Ht.
  unfold advance, ReleaseLimiter, limiter_Release, semaphore.Release.
  rewrite decide_True by done. rewrite Hs.
  by rewrite decide_False by lia.
Qed.

(** The steps of a task in the reachable states. *)
Lemma task_step_next f h cfg (w0 : World) (s : System) t o p :
  main f = Serving h cfg w0 ->
  Z.of_nat (length (flag_Args f)) < 2 ^ 32 ->
  reachable cfg w0 s ->
  tasks s !! t = Some p ->
  next_step cfg (Z.of_nat (length (flag_Args f))) t o s p.
Proof.
  intros Hm Hargs Hr Ht.
  assert (t < length (tasks s))%nat as Hlt by by eapply lookup_lt_Some.
  destruct (reachable_lists cfg w0 s Hr) as [Hp _].
  pose proof Hm as Hm'.
  apply main_Serving in Hm' as (_ & Hne & _ & _ & _ & _ & Hlen & _).
  assert (0 < Z.of_nat (length (flag_Args f))) as Hpos
    by (destruct (flag_Args f); [done | simpl; lia]).
  destruct p as [r|r n i|r n i limiter|r n i limiter| |]; simpl.
  - eexists. split.
    + apply task_step_start; [|done].
      rewrite Hp, Hlen. unfold uint32_modulus. lia.
    + simpl. rewrite list_lookup_insert_eq by done.
      by rewrite Hp, Hlen.
  - destruct (decide (numConnsPerServer cfg = 0)) as [Hz|Hnz].
    + eexists. split; [by apply task_step_unlimited|].
      simpl. by rewrite list_lookup_insert_eq.
    + destruct (task_step_acquire cfg w0 s t r n i o)
        as (sem & Hs & Hsz & Hcur & Hstep);
        [done | by eapply permit_invariant_reachable | done |].
      exists sem. split_and!; try done.
      case_decide; [|done].
      eexists. split; [done|]. simpl. by rewrite list_lookup_insert_eq.
  - unfold task_step. rewrite Ht. unfold advance.
    destruct o; simpl; eexists; (split; [done|]); simpl;
      by rewrite list_lookup_insert_eq.
  - destruct (decide (numConnsPerServer cfg = 0)) as [Hz|Hnz].
    + unfold task_step. rewrite Ht. unfold advance, ReleaseLimiter.
      rewrite decide_False by lia. simpl.
      eexists. split; [done|]. simpl. by rewrite list_lookup_insert_eq.
    + destruct (task_step_release cfg w0 s t r n i limiter o)
        as (sem & _ & _ & ->);
        [done | by eapply permit_invariant_reachable | done |].
      eexists. split; [done|]. simpl. by rewrite list_lookup_insert_eq.
  - unfold task_step. by rewrite Ht.
  - unfold task_step. by rewrite Ht.
Qed.

(** X8. The handler's own code never panics. In every state reachable
    from start-up, a step that leaves its task aborted is the end of a
    forward by a panic of [proxy.ServeHTTP]: the modulo, the indexing of
    the proxies and limiters and the release never panic. *)
Theorem abort_only_by_forward_panic (f : Flags) cfg (w0 : World)
    (s s' : System) t o
    (Hmain : main f = Serving ProxyH cfg w0)
    (Hargs : Z.of_nat (length (flag_Args f)) < 2 ^ 32)
    (Hreach : reachable cfg w0 s)
    (Hstep : task_step cfg t o s = Some s')
    (Habort : tasks s' !! t = Some pcAborted) :
  o = ServePanics
  /\ exists r n i limiter, tasks s !! t = Some (pcForwarding r n i limiter).
Proof.
  destruct (tasks s !! t) as [p|] eqn:Ht;
    [|unfold task_step in Hstep; by rewrite Ht in Hstep].
  pose proof (task_step_next f ProxyH cfg w0 s t o p Hmain Hargs Hreach Ht)
    as Hnext.
  destruct p as [r|r n i|r n i limiter|r n i limiter| |]; simpl in Hnext.
  - destruct Hnext as (s1 & Hs1 & Hp1). congruence.
  - destruct (decide (numConnsPerServer cfg = 0)).
    + destruct Hnext as (s1 & Hs1 & Hp1). congruence.
    + destruct Hnext as (sem & _ & _ & _ & Hnext).
      case_decide; [|congruence].
      destruct Hnext as (s1 & Hs1 & Hp1). congruence.
  - destruct Hnext as (s1 & Hs1 & Hp1). destruct o; [congruence|]. eauto 6.
  - destruct Hnext as (s1 & Hs1 & Hp1). congruence.
  - congruence.
  - congruence.
Qed.

(** X10. Without leaked permits the limiter does not deadlock. With a
    cap above 0, when a task waits at the limiter of a backend none of
    whose permits is leaked, some task holds a permit of that limiter
    and can take its next step, however its forward ends. *)
Theorem waiting_has_running_holder (f : Flags) cfg (w0 : World)
    (s : System) t o r n i
    (Hmain : main f = Serving ProxyH cfg w0)
    (Hcap : 0 < numConnsPerServer cfg)
    (Hargs : Z.of_nat (length (flag_Args f)) < 2 ^ 32)
    (Hreach : reachable cfg w0 s)
    (Htask : tasks s !! t = Some (pcSelected r n i))
    (Hstuck : task_step cfg t o s = None)
    (Hleak : leaked (Z.to_nat i) s = 0) :
  exists t' p',
    tasks s !! t' = Some p'
    /\ holds_permit (Z.to_nat i) p' = true
    /\ forall o', is_Some (task_step cfg t' o' s).
Proof.
  pose proof (task_step_next f ProxyH cfg w0 s t o _ Hmain Hargs Hreach Htask)
    as Hnext.
  simpl in Hnext. rewrite decide_False in Hnext by lia.
  destruct Hnext as (sem & Hs & Hsz & Hcur & Hnext).
  case_decide; [destruct Hnext as (s1 & Hs1 & _); congruence|].
  unfold leaked in Hleak. rewrite Hs in Hleak.
  destruct (count_tasks_pos (holds_permit (Z.to_nat i)) (tasks s))
    as (p' & Hin & Hp'); [unfold permits_held in Hleak; lia|].
  apply list_elem_of_lookup in Hin as [t' Ht'].
  exists t', p'. split_and!; try done.
  intros o'.
  pose proof (task_step_next f ProxyH cfg w0 s t' o' p'
                Hmain Hargs Hreach Ht') as Hnext'.
  destruct p' as [|?|r' n' i' limiter'|r' n' i' limiter'| |];
    try done; simpl in Hnext'; destruct Hnext' as (s1 & -> & _); by eexists.
Qed.

(** A step that does not abort its task leaves the leaked permits of
    every limiter as they are. *)
Lemma leaked_step_eq cfg (w0 : World) t (s s' : System) l :
  numConnsPerServer cfg <> 0 ->
  permit_invariant (numConnsPerServer cfg) w0 s ->
  step cfg t s s' ->
  tasks s' !! t <> Some pcAborted ->
  leaked l s' = leaked l s.
Proof.
  intros Hc Hinv Hstep Hna.
  pose proof Hinv as (Hp & Hcl & Hlen & Hsem & Hok).
  destruct s as [w ts]. unfold leaked. simpl in *.
  inversion Hstep as
    [ r num n idx Ht Hnum Hn Hn0 Hidx Hsome
    | r num Ht Hnum
    | r num idx Ht Hz
    | r num idx l0 sem Ht _ Hl Hs Hfree
    | r num idx limiter Ht
    | r num idx limiter Ht Hz
    | r num idx l0 sem Ht _ Hs Hheld
    | r num idx l0 sem Ht _ Hs Hover
    | p Ht Hnot ]; subst; simpl in *; try done;
    try (exfalso; by eapply (release_panic_impossible _ w0
                               {| world := w; tasks := ts |})).
  - destruct (semaphores w !! l); [|done].
    rewrite (permits_held_insert l w _ ts t _ _ Ht). simpl. lia.
  - exfalso. apply Hna. apply list_lookup_insert_eq. by eapply lookup_lt_Some.
  - destruct (decide (l = l0)) as [->|Hne].
    + rewrite Hs, list_lookup_insert_eq by by eapply lookup_lt_Some.
      rewrite (permits_held_insert l0 w _ ts t _ _ Ht). simpl.
      rewrite bool_decide_eq_true_2 by done. simpl. lia.
    + rewrite list_lookup_insert_ne by done.
      destruct (semaphores w !! l); [|done].
      rewrite (permits_held_insert l w _ ts t _ _ Ht). simpl.
      rewrite bool_decide_eq_false_2 by done. simpl. lia.
  - destruct (semaphores w !! l); [|done].
    rewrite (permits_held_insert l w _ ts t _ _ Ht). simpl. lia.
  - destruct (decide (l = l0)) as [->|Hne].
    + rewrite Hs, list_lookup_insert_eq by by eapply lookup_lt_Some.
      rewrite (permits_held_insert l0 w _ ts t _ _ Ht). simpl.
      rewrite bool_decide_eq_true_2 by done. simpl. lia.
    + rewrite list_lookup_insert_ne by done.
      destruct (semaphores w !! l); [|done].
      rewrite (permits_held_insert l w _ ts t _ _ Ht). simpl.
      rewrite bool_decide_eq_false_2 by done. simpl. lia.
  - exfalso. apply Hna. apply list_lookup_insert_eq. by eapply lookup_lt_Some.
Qed.

Lemma returning_step_not_aborted f h cfg (w0 : World) (s s' : System) t :
  main f = Serving h cfg w0 ->
  Z.of_nat (length (flag_Args f)) < 2 ^ 32 ->
  reachable cfg w0 s ->
  task_step cfg t ServeReturns s = Some s' ->
  tasks s' !! t <> Some pcAborted.
Proof.
  intros Hm Hargs Hr Hstep.
  destruct (tasks s !! t) as [p|] eqn:Ht;
    [|unfold task_step in Hstep; by rewrite Ht in Hstep].
  pose proof (task_step_next f h cfg w0 s t ServeReturns p Hm Hargs Hr Ht)
    as Hnext.
  destruct p as [r|r n i|r n i limiter|r n i limiter| |]; simpl in Hnext.
  - destruct Hnext as (s1 & Hs1 & Hp1). congruence.
  - destruct (decide (numConnsPerServer cfg = 0)).
    + destruct Hnext as (s1 & Hs1 & Hp1). congruence.
    + destruct Hnext as (sem & _ & _ & _ & Hnext).
      case_decide; [|congruence].
      destruct Hnext as (s1 & Hs1 & Hp1). congruence.
  - destruct Hnext as (s1 & Hs1 & Hp1). congruence.
  - destruct Hnext as (s1 & Hs1 & Hp1). congruence.
  - congruence.
  - congruence.
Qed.

Lemma no_leak_run f h cfg (w0 : World) sched (s s' : System) :
  main f = Serving h cfg w0 ->
  numConnsPerServer cfg <> 0 ->
  Z.of_nat (length (flag_Args f)) < 2 ^ 32 ->
  Forall forward_returns sched ->
  reachable cfg w0 s ->
  (forall l, leaked l s = 0) ->
  run cfg sched s = Some s' ->
  forall l, leaked l s' = 0.
Proof.
  intros Hm Hc Hargs Hall. revert s.
  induction Hall as [|a sched Ha _ IH]; intros s Hr Hleak; simpl.
  - by intros [= <-].
  - destruct a as [r|t o].
    + apply IH; [by constructor|].
      intros l. specialize (Hleak l). unfold leaked, permits_held in *.
      simpl. destruct (semaphores (world s) !! l); [|done].
      rewrite count_tasks_app. simpl. lia.
    + destruct o; [|done].
      destruct (task_step cfg t ServeReturns s) as [s1|] eqn:Hstep; [|done].
      apply IH; [by econstructor|].
      intros l. rewrite <- (Hleak l).
      eapply leaked_step_eq; [done | | by eapply task_step_sound |].
      * by eapply permit_invariant_reachable.
      * by eapply returning_step_not_aborted.
Qed.

(** X11. As long as no forward panics, no permit leaks. With a cap, in
    every state reached from start-up by a schedule in which every
    forward returns, each semaphore counts exactly the permits that
    tasks hold: those of the tasks between [Acquire] and [Release]. *)
Theorem no_leak_without_panic (f : Flags) cfg (w0 : World) sched
    (s : System) l sem
    (Hmain : main f = Serving ProxyH cfg w0)
    (Hcap : numConnsPerServer cfg <> 0)
    (Hargs : Z.of_nat (length (flag_Args f)) < 2 ^ 32)
    (Hreturn : Forall forward_returns sched)
    (Hrun : run cfg sched (serving w0) = Some s)
    (Hsem : semaphores (world s) !! l = Some sem) :
  semaphore.cur sem = Z.of_nat (permits_held l s).
Proof.
  assert (forall l, leaked l (serving w0) = 0) as H0.
  { intros l0. unfold leaked, permits_held, count_tasks. simpl.
    apply main_Serving in Hmain
      as (_ & _ & _ & _ & _ & _ & _ & _ & _ & Hn & _).
    destruct (Hn Hcap) as [_ ->].
    destruct (replicate _ _ !! l0) as [sem0|] eqn:Hl0; [|done].
    apply lookup_replicate in Hl0 as [-> _]. simpl. lia. }
  pose proof (no_leak_run f ProxyH cfg w0 sched (serving w0) s
                Hmain Hcap Hargs Hreturn (reach_serving cfg w0) H0 Hrun l)
    as Hl.
  unfold leaked in Hl. rewrite Hsem in Hl. lia.
Qed.

(** ** Tickets under concurrency *)

Lemma count_tasks_le_length P (ts : list pc) :
  (count_tasks P ts <= length ts)%nat.
Proof. unfold count_tasks. apply length_filter. Qed.

(** A task moves on without drawing: the tickets stay in order. *)
Lemma tickets_ok_keep (s : System) (w' : World) t old new :
  tasks s !! t = Some old ->
  requestNum (proxyState w') = requestNum (proxyState (world s)) ->
  has_drawn old = true ->
  has_drawn new = true ->
  (forall n, ticket_of new = Some n -> ticket_of old = Some n) ->
  tickets_ok s ->
  tickets_ok {| world := w'; tasks := <[t := new]> (tasks s) |}.
Proof.
  intros Ht HR Hold Hnew Hkeep (Hcount & Hrange & Hdist).
  assert (forall t1 p n,
    <[t := new]> (tasks s) !! t1 = Some p -> ticket_of p = Some n ->
    exists p0, tasks s !! t1 = Some p0 /\ ticket_of p0 = Some n) as Hback.
  { intros t1 p n Hl Hn. destruct (decide (t1 = t)) as [->|Hne].
    - rewrite list_lookup_insert_eq in Hl by by eapply lookup_lt_Some.
      simplify_eq. eauto.
    - rewrite list_lookup_insert_ne in Hl by done. eauto. }
  unfold tickets_ok. simpl. rewrite HR. split_and!.
  - pose proof (count_tasks_insert has_drawn (tasks s) t old new Ht) as Hc.
    rewrite Hold, Hnew in Hc. simpl in Hc. rewrite Hcount. f_equal. lia.
  - intros t1 p n Hl Hn. destruct (Hback t1 p n Hl Hn) as (p0 & ? & ?).
    eauto.
  - intros t1 t2 p1 p2 n Hl1 Hl2 Hn1 Hn2.
    destruct (Hback t1 p1 n Hl1 Hn1) as (q1 & ? & ?).
    destruct (Hback t2 p2 n Hl2 Hn2) as (q2 & ? & ?). eauto.
Qed.

(** A task draws its ticket: the ticket is new. *)
Lemma tickets_ok_draw (s : System) t r new :
  let num := AddUint32 (requestNum (proxyState (world s))) 1 in
  tasks s !! t = Some (pcStart r) ->
  Z.of_nat (length (tasks s)) < 2 ^ 32 ->
  has_drawn new = true ->
  (forall n, ticket_of new = Some n -> n = num) ->
  tickets_ok s ->
  tickets_ok {| world := with_requestNum num (world s);
                tasks := <[t := new]> (tasks s) |}.
Proof.
  intros num Ht Hbound Hnew Hticket (Hcount & Hrange & Hdist).
  pose proof (count_tasks_insert has_drawn (tasks s) t _ new Ht) as Hc.
  rewrite Hnew in Hc. simpl in Hc.
  pose proof (count_tasks_le_length has_drawn (<[t := new]> (tasks s))) as Hle.
  rewrite length_insert in Hle.
  assert (num = requestNum (proxyState (world s)) + 1) as Hnum.
  { subst num. unfold AddUint32, uint32, uint32_modulus.
    apply Z.mod_small. lia. }
  assert (forall t1 p n,
    <[t := new]> (tasks s) !! t1 = Some p -> ticket_of p = Some n ->
    (t1 = t /\ n = num)
    \/ (t1 <> t /\ exists p0, tasks s !! t1 = Some p0
                            /\ ticket_of p0 = Some n)) as Hback.
  { intros t1 p n Hl Hn. destruct (decide (t1 = t)) as [->|Hne].
    - rewrite list_lookup_insert_eq in Hl by by eapply lookup_lt_Some.
      simplify_eq. left. eauto.
    - rewrite list_lookup_insert_ne in Hl by done. right. eauto. }
  unfold tickets_ok. simpl. split_and!.
  - lia.
  - intros t1 p n Hl Hn.
    destruct (Hback t1 p n Hl Hn) as [[_ ->]|(_ & p0 & Hp0 & Hn0)]; [lia|].
    specialize (Hrange _ _ _ Hp0 Hn0). lia.
  - intros t1 t2 p1 p2 n Hl1 Hl2 Hn1 Hn2.
    destruct (Hback t1 p1 n Hl1 Hn1) as [[-> ->]|(_ & q1 & Hq1 & Hm1)];
      destruct (Hback t2 p2 _ Hl2 Hn2) as [[-> Hn]|(_ & q2 & Hq2 & Hm2)];
      try done.
    + specialize (Hrange _ _ _ Hq2 Hm2). lia.
    + specialize (Hrange _ _ _ Hq1 Hm1). lia.
    + eauto.
Qed.

Lemma tickets_ok_reachable f h cfg (w0 : World) (s : System) :
  main f = Serving h cfg w0 ->
  reachable cfg w0 s ->
  Z.of_nat (length (tasks s)) < 2 ^ 32 ->
  tickets_ok s.
Proof.
  intros Hm. induction 1 as [|s r _ IH|s t o s' _ IH Hstep]; intros Hbound.
  - apply main_Serving in Hm as (_ & _ & _ & _ & _ & _ & _ & Hrn & _).
    unfold tickets_ok. simpl. rewrite Hrn. by split_and!.
  - simpl in Hbound. rewrite length_app in Hbound. simpl in Hbound.
    destruct IH as (Hcount & Hrange & Hdist); [lia|].
    assert (forall t1 p n,
      (tasks s ++ [pcStart r]) !! t1 = Some p -> ticket_of p = Some n ->
      tasks s !! t1 = Some p) as Hback.
    { intros t1 p n Hl Hn.
      apply lookup_snoc_Some in Hl as [[_ ?]|[_ <-]]; done. }
    unfold tickets_ok. simpl. split_and!.
    + rewrite count_tasks_app. simpl. rewrite Hcount. f_equal. lia.
    + intros t1 p n Hl Hn. eauto.
    + intros t1 t2 p1 p2 n Hl1 Hl2 Hn1 Hn2. eauto.
  - apply task_step_sound in Hstep.
    assert (Z.of_nat (length (tasks s)) < 2 ^ 32) as Hb.
    { inversion Hstep; subst; simpl in Hbound;
        by rewrite length_insert in Hbound. }
    specialize (IH Hb). destruct s as [w ts]. simpl in *.
    inversion Hstep as
      [ r num n idx Ht Hnum Hn Hn0 Hidx Hsome
      | r num Ht Hnum
      | r num idx Ht Hz
      | r num idx l sem Ht _ Hl Hs Hfree
      | r num idx limiter Ht
      | r num idx limiter Ht Hz
      | r num idx l sem Ht _ Hs Hheld
      | r num idx l sem Ht _ Hs Hover
      | p Ht Hnot ]; subst; simpl in *.
    + apply (tickets_ok_draw {| world := w; tasks := ts |} t r); try done.
      simpl. by intros ? [= <-].
    + by apply (tickets_ok_draw {| world := w; tasks := ts |} t r).
    + by eapply (tickets_ok_keep {| world := w; tasks := ts |}).
    + by eapply (tickets_ok_keep {| world := w; tasks := ts |}).
    + by eapply (tickets_ok_keep {| world := w; tasks := ts |}).
    + by eapply (tickets_ok_keep {| world := w; tasks := ts |}).
    + by eapply (tickets_ok_keep {| world := w; tasks := ts |}).
    + by eapply (tickets_ok_keep {| world := w; tasks := ts |}).
    + eapply (tickets_ok_keep {| world := w; tasks := ts |}); try done.
      destruct p; try done. by destruct (Hnot r).
Qed.

(** X12. No two requests share a ticket. In every state reachable from
    start-up with fewer than [2^32] requests accepted, whatever the
    interleaving, two different tasks in the handler hold different
    tickets, every ticket held lies between 1 and the counter, and the
    counter is the number of requests that have drawn a ticket. *)
Theorem tickets_distinct (f : Flags) cfg (w0 : World) (s : System)
    (Hmain : main f = Serving ProxyH cfg w0)
    (Hreach : reachable cfg w0 s)
    (Hbound : Z.of_nat (length (tasks s)) < 2 ^ 32) :
  requestNum (proxyState (world s))
    = Z.of_nat (count_tasks has_drawn (tasks s))
  /\ (forall t p n,
        tasks s !! t = Some p -> ticket_of p = Some n ->
        1 <= n <= requestNum (proxyState (world s)))
  /\ (forall t1 t2 p1 p2 n1 n2,
        tasks s !! t1 = Some p1 -> tasks s !! t2 = Some p2 ->
        ticket_of p1 = Some n1 -> ticket_of p2 = Some n2 ->
        t1 <> t2 -> n1 <> n2).
Proof.
  destruct (tickets_ok_reachable f ProxyH cfg w0 s Hmain Hreach Hbound)
    as (Hcount & Hrange & Hdist).
  split_and!; [done | done |].
  intros t1 t2 p1 p2 n1 n2 H1 H2 Hn1 Hn2 Hne ->.
  apply Hne. eauto.
Qed.

Lemma selection_ok_reachable f h cfg (w0 : World) (s : System) :
  main f = Serving h cfg w0 ->
  Z.of_nat (length (flag_Args f)) < 2 ^ 32 ->
  reachable cfg w0 s ->
  Forall (selection_ok (Z.of_nat (length (flag_Args f)))) (tasks s).
Proof.
  intros Hm Hargs Hr.
  pose proof Hm as Hm'.
  apply main_Serving in Hm' as (_ & _ & _ & _ & _ & _ & Hlen & _).
  induction Hr as [|s r _ IH|s t o s' Hr IH Hstep]; simpl.
  - constructor.
  - apply Forall_app. split; [done|]. by repeat constructor.
  - destruct (reachable_lists cfg w0 s Hr) as [Hp _].
    pose proof (fun i p => Forall_lookup_1 _ _ i p IH) as IH'.
    apply task_step_sound in Hstep.
    inversion Hstep as
      [ r num n idx Ht Hnum Hn Hn0 Hidx Hsome
      | r num Ht Hnum
      | r num idx Ht Hz
      | r num idx l sem Ht _ Hl Hs Hfree
      | r num idx limiter Ht
      | r num idx limiter Ht Hz
      | r num idx l sem Ht _ Hs Hheld
      | r num idx l sem Ht _ Hs Hover
      | p Ht Hnot ]; subst; simpl;
      (apply Forall_insert; [done|]); simpl; try done;
      try exact (IH' _ _ Ht).
    rewrite Hp, Hlen, uint32_small; [done|].
    unfold uint32_modulus. lia.
Qed.

(** X13. Under every interleaving the backend of a request is its ticket
    modulo the number of backends. In every state reachable from
    start-up with [N < 2^32] backends, a task in the handler with ticket
    [n] works on the backend with index [n mod N], which is below [N]. *)
Theorem backend_from_ticket (f : Flags) cfg (w0 : World) (s : System)
    t p n i
    (Hmain : main f = Serving ProxyH cfg w0)
    (Hargs : Z.of_nat (length (flag_Args f)) < 2 ^ 32)
    (Hreach : reachable cfg w0 s)
    (Htask : tasks s !! t = Some p)
    (Hticket : ticket_of p = Some n)
    (Hbackend : backend_of p = Some i) :
  i = n mod Z.of_nat (length (flag_Args f))
  /\ 0 <= i < Z.of_nat (length (flag_Args f)).
Proof.
  pose proof (selection_ok_reachable f ProxyH cfg w0 s Hmain Hargs Hreach)
    as Hok.
  pose proof (Forall_lookup_1 _ _ _ _ Hok Htask) as Hp.
  apply main_Serving in Hmain as (_ & Hne & _).
  assert (0 < Z.of_nat (length (flag_Args f))) as Hpos
    by (destruct (flag_Args f); [done | simpl; lia]).
  assert (i = n mod Z.of_nat (length (flag_Args f))) as ->
    by (destruct p; simpl in *; by simplify_eq).
  split; [done|]. by apply Z.mod_pos_bound.
Qed.

(* ===================================================================== *)
(** * More on the buffer pool *)

Lemma sync_Pool_Get_Some pick (p p' : list BufferPool.buffer) buf :
  BufferPool.sync_Pool_Get pick p = (Some buf, p') ->
  exists k, p !! k = Some buf /\ p' = delete k p.
Proof.
  unfold BufferPool.sync_Pool_Get. destruct pick as [k|]; [|done].
  destruct (p !! k) eqn:Hk; [|done]. intros [= <- <-]. eauto.
Qed.

Lemma sync_Pool_Get_None pick (p p' : list BufferPool.buffer) :
  BufferPool.sync_Pool_Get pick p = (None, p') -> p' = p.
Proof.
  unfold BufferPool.sync_Pool_Get. destruct pick as [k|]; [|by intros [=]].
  destruct (p !! k); [done | by intros [=]].
Qed.

Lemma length_delete_bound (A : Type) (l : list A) k :
  (length (delete k l) <= length l)%nat.
Proof.
  revert k. induction l as [|y l IH]; intros [|k]; simpl; try lia.
  specialize (IH k). lia.
Qed.

Lemma elem_of_delete_list (A : Type) (l : list A) k x :
  x ∈ delete k l -> x ∈ l.
Proof.
  revert k. induction l as [|y l IH]; intros [|k]; simpl; try done.
  - by right.
  - intros [->|?]%elem_of_cons; [left | right; eauto].
Qed.

Lemma run_provenance cfg h bufPool bufs bufPool' :
  BufferPool.run cfg h bufPool = Some (bufs, bufPool') ->
  Forall (fun buf =>
            buf = replicate (Z.to_nat (poolBufSize cfg)) Byte.x00
            \/ buf ∈ BufferPool.pool bufPool \/ buf ∈ BufferPool.puts h) bufs
  /\ Forall (fun buf =>
              buf ∈ BufferPool.pool bufPool \/ buf ∈ BufferPool.puts h)
       (BufferPool.pool bufPool').
Proof.
  revert bufPool bufs bufPool'.
  induction h as [|o h IH]; intros bufPool bufs bufPool' Hrun; simpl in Hrun.
  - simplify_eq. split; [constructor|].
    apply Forall_forall. intros buf Hin. by left.
  - destruct o as [pick|buf|k]; simpl.
    + destruct (BufferPool.Get cfg pick bufPool) as [[buf p1]|] eqn:Hg;
        [|done].
      destruct (BufferPool.run cfg h p1) as [[bufs1 p2]|] eqn:Hr; [|done].
      simplify_eq. destruct (IH _ _ _ Hr) as [Hbufs Hpool].
      unfold BufferPool.Get in Hg.
      destruct (BufferPool.sync_Pool_Get pick (BufferPool.pool bufPool))
        as [[b|] p'] eqn:Hs.
      * simplify_eq. simpl in *.
        apply sync_Pool_Get_Some in Hs as (k & Hk & ->).
        assert (forall x, x ∈ delete k (BufferPool.pool bufPool) ->
                          x ∈ BufferPool.pool bufPool) as Hsub
          by (intros x; apply elem_of_delete_list).
        split.
        -- constructor.
           ++ right. left. by eapply list_elem_of_lookup_2.
           ++ eapply Forall_impl; [exact Hbufs|]. simpl.
              intros x [?|[?|?]]; eauto.
        -- eapply Forall_impl; [exact Hpool|]. simpl.
           intros x [?|?]; eauto.
      * apply sync_Pool_Get_None in Hs as ->.
        unfold BufferPool.make_bytes in Hg.
        case_decide; [done|].
        assert (BufferPool.pool p1 = BufferPool.pool bufPool) as Hp1
          by (destruct (beVerbose cfg); by simplify_eq).
        assert (buf = replicate (Z.to_nat (poolBufSize cfg)) Byte.x00) as ->
          by (destruct (beVerbose cfg); by simplify_eq).
        rewrite Hp1 in Hbufs, Hpool. split; [|done].
        constructor; [by left | done].
    + destruct (IH _ _ _ Hrun) as [Hbufs Hpool]. simpl in *.
      split.
      * eapply Forall_impl; [exact Hbufs|]. simpl.
        intros x. rewrite !elem_of_cons. tauto.
      * eapply Forall_impl; [exact Hpool|]. simpl.
        intros x. rewrite !elem_of_cons. tauto.
    + destruct (IH _ _ _ Hrun) as [Hbufs Hpool]. simpl in *.
      split.
      * eapply Forall_impl; [exact Hbufs|]. simpl.
        intros x [?|[?%elem_of_delete_list|?]]; eauto.
      * eapply Forall_impl; [exact Hpool|]. simpl.
        intros x [?%elem_of_delete_list|?]; eauto.
Qed.

(** X15. The pool hands out nothing it was not given. Over every history
    of calls on a pool as [NewProxyBufferPool] makes it, every buffer a
    [Get] returns is a zeroed buffer of the configured size or a buffer
    that a [Put] of the history handed in, and so is every buffer left
    in the pool. *)
Theorem pool_buffers_provenance cfg (h : list BufferPool.op) bufs bufPool'
    (Hrun : BufferPool.run cfg h BufferPool.NewProxyBufferPool
            = Some (bufs, bufPool')) :
  Forall (fun buf =>
            buf = replicate (Z.to_nat (poolBufSize cfg)) Byte.x00
            \/ buf ∈ BufferPool.puts h) bufs
  /\ Forall (fun buf => buf ∈ BufferPool.puts h) (BufferPool.pool bufPool').
Proof.
  apply run_provenance in Hrun as [Hbufs Hpool]. simpl in *. split.
  - eapply Forall_impl; [exact Hbufs|]. simpl.
    intros x [?|[?%elem_of_nil|?]]; eauto; done.
  - eapply Forall_impl; [exact Hpool|]. simpl.
    intros x [?%elem_of_nil|?]; done.
Qed.

Lemma run_accounting cfg h bufPool bufs bufPool' :
  0 <= BufferPool.bufAllocNum bufPool ->
  BufferPool.bufAllocNum bufPool + Z.of_nat (length h) < 2 ^ 32 ->
  BufferPool.run cfg h bufPool = Some (bufs, bufPool') ->
  let allocs := BufferPool.bufAllocNum bufPool'
                - BufferPool.bufAllocNum bufPool in
  (beVerbose cfg = false -> allocs = 0)
  /\ (beVerbose cfg = true ->
      0 <= allocs <= Z.of_nat (length bufs)
      /\ Z.of_nat (length bufs) + Z.of_nat (length (BufferPool.pool bufPool'))
         <= allocs + Z.of_nat (length (BufferPool.puts h))
            + Z.of_nat (length (BufferPool.pool bufPool))).
Proof.
  revert bufPool bufs bufPool'.
  induction h as [|o h IH]; intros bufPool bufs bufPool' Ha Hb Hrun;
    simpl in Hrun.
  - simplify_eq. simpl. split; intros; lia.
  - simpl length in Hb. destruct o as [pick|buf|k]; simpl.
    + destruct (BufferPool.Get cfg pick bufPool) as [[buf p1]|] eqn:Hg;
        [|done].
      destruct (BufferPool.run cfg h p1) as [[bufs1 p2]|] eqn:Hr; [|done].
      simplify_eq. unfold BufferPool.Get in Hg.
      destruct (BufferPool.sync_Pool_Get pick (BufferPool.pool bufPool))
        as [[b|] p'] eqn:Hs.
      * simplify_eq. apply sync_Pool_Get_Some in Hs as (k & Hk & ->).
        destruct (fun H1 H2 => IH _ _ _ H1 H2 Hr) as [Hq Hv];
          [simpl; lia | simpl; lia |]. simpl in *.
        rewrite length_delete in Hv by eauto.
        apply lookup_lt_Some in Hk.
        split; [done|]. intros Hverb. specialize (Hv Hverb). lia.
      * apply sync_Pool_Get_None in Hs as ->.
        destruct (BufferPool.make_bytes (poolBufSize cfg)); [|done].
        destruct (beVerbose cfg) eqn:Hverb; simplify_eq.
        -- assert (AddUint32 (BufferPool.bufAllocNum bufPool) 1
                   = BufferPool.bufAllocNum bufPool + 1) as Hadd.
           { unfold AddUint32, uint32, uint32_modulus.
             apply Z.mod_small. lia. }
           destruct (fun H1 H2 => IH _ _ _ H1 H2 Hr) as [_ Hv];
             [simpl; lia | simpl; lia |]. simpl in *. rewrite Hadd in Hv.
           split; [done|]. intros _. specialize (Hv eq_refl). lia.
        -- destruct (fun H1 H2 => IH _ _ _ H1 H2 Hr) as [Hq _];
             [simpl; lia | simpl; lia |]. simpl in *. split; [done | done].
    + destruct (fun H1 H2 => IH _ _ _ H1 H2 Hrun) as [Hq Hv];
        [simpl; lia | simpl; lia |]. simpl in *.
      split; [done|]. intros Hverb. specialize (Hv Hverb). lia.
    + destruct (fun H1 H2 => IH _ _ _ H1 H2 Hrun) as [Hq Hv];
        [simpl; lia | simpl; lia |]. simpl in *.
      split; [done|]. intros Hverb. specialize (Hv Hverb).
      pose proof (length_delete_bound _ (BufferPool.pool bufPool) k). lia.
Qed.

(** X16. The allocation counter and what it counts. Over every history
    of fewer than [2^32] calls on a pool as [NewProxyBufferPool] makes
    it: without the verbose flag the counter stays 0; with it the counter
    is at most the number of buffers handed out, and the buffers handed
    out together with those still pooled are at most the counter plus
    the buffers put, so a [Get] that did not allocate used up a [Put]. *)
Theorem pool_accounting cfg (h : list BufferPool.op) bufs bufPool'
    (Hcalls : Z.of_nat (length h) < 2 ^ 32)
    (Hrun : BufferPool.run cfg h BufferPool.NewProxyBufferPool
            = Some (bufs, bufPool')) :
  (beVerbose cfg = false -> BufferPool.bufAllocNum bufPool' = 0)
  /\ (beVerbose cfg = true ->
      0 <= BufferPool.bufAllocNum bufPool' <= Z.of_nat (length bufs)
      /\ Z.of_nat (length bufs) + Z.of_nat (length (BufferPool.pool bufPool'))
         <= BufferPool.bufAllocNum bufPool'
            + Z.of_nat (length (BufferPool.puts h))).
Proof.
  destruct (run_accounting cfg h BufferPool.NewProxyBufferPool bufs bufPool')
    as [Hq Hv]; simpl; try done.
  simpl in *. split.
  - intros Hverb. specialize (Hq Hverb). lia.
  - intros Hverb. specialize (Hv Hverb). lia.
Qed.

End Facts.

(* ===================================================================== *)
(** * The theorems at concrete inputs *)

Lemma after_reachable maxconns args sched s :
  run (Ex.config maxconns 0 args) sched
    (serving (Ex.world maxconns 0 args)) = Some s ->
  reachable (Ex.config maxconns 0 args) (Ex.world maxconns 0 args) s.
Proof. apply run_reachable. constructor. Qed.

(** [admission_cap] at work: two backends with one connection each, three
    requests, of which two are being forwarded and the third waits. *)
Lemma admission_cap_witness :
  Ex.start (Ex.flags 1 0 ["http://a"; "http://b"])
    = Serving ProxyH (Ex.config 1 0 ["http://a"; "http://b"])
        (Ex.world 1 0 ["http://a"; "http://b"])
  /\ 0 < numConnsPerServer (Ex.config 1 0 ["http://a"; "http://b"])
  /\ Z.of_nat
       (forwards_running 1
          (Ex.after 1 ["http://a"; "http://b"] Ex.three_requests))
     <= 1.
Proof.
  split; [reflexivity|]. split; [reflexivity|].
  apply (admission_cap Ex.parse_any Ex.rlimit
           (Ex.flags 1 0 ["http://a"; "http://b"])
           (Ex.config 1 0 ["http://a"; "http://b"])
           (Ex.world 1 0 ["http://a"; "http://b"])
           (Ex.after 1 ["http://a"; "http://b"] Ex.three_requests) 1).
  - reflexivity.
  - reflexivity.
  - apply after_reachable with (sched := Ex.three_requests).
    vm_compute. reflexivity.
Defined.

(** C2, at the failing input. One backend, at most one connection. The
    forward of the first request is aborted by a panic of
    [proxy.ServeHTTP]: the handler run ends in that panic after its
    [Acquire] and without a [Release], and the semaphore keeps counting
    the permit. The next request, run on its own, is stuck in [Acquire].
    In the concurrent system the same schedule leads to a state in which
    no task holds a permit, the semaphore is full, and the second request
    has no step. Had the first forward returned, the permit would be back. *)
Theorem permit_leak_on_abort :
  let cfg := Ex.config 1 0 ["http://a"] in
  let w0 := Ex.world 1 0 ["http://a"] in
  let w1 := (ProxyRequestHandler cfg ServePanics (Ex.GET "/x") w0).1 in
  let s := Ex.after 1 ["http://a"] Ex.aborted_forward in
  Ex.start (Ex.flags 1 0 ["http://a"]) = Serving ProxyH cfg w0
  /\ (ProxyRequestHandler cfg ServePanics (Ex.GET "/x") w0).2 = Panic
  /\ trace w1 = [EvAcquire 0; EvServeHTTP 0 (Ex.GET "/x")]
  /\ semaphores w1 = [{| semaphore.size := 1; semaphore.cur := 1 |}]
  /\ (ProxyRequestHandler cfg ServeReturns (Ex.GET "/y") w1).2 = Blocked
  /\ run cfg Ex.aborted_forward (serving w0) = Some s
  /\ tasks s = [pcAborted; pcSelected (Ex.GET "/y") 2 0]
  /\ permits_held 0 s = 0%nat
  /\ semaphores (world s) = [{| semaphore.size := 1; semaphore.cur := 1 |}]
  /\ (forall o, task_step cfg 1 o s = None)
  /\ semaphores (ProxyRequestHandler cfg ServeReturns (Ex.GET "/x") w0).1
     = [{| semaphore.size := 1; semaphore.cur := 0 |}].
Proof.
  vm_compute. split_and!; reflexivity.
Qed.

(** After that schedule the permit of the one backend is lost for good:
    however the system goes on, no task holds it again. *)
Lemma permit_lost_for_good sched s' :
  run (Ex.config 1 0 ["http://a"]) sched
    (Ex.after 1 ["http://a"] Ex.aborted_forward) = Some s' ->
  permits_held 0 s' = 0%nat.
Proof.
  apply (all_leaked_forever Ex.parse_any Ex.rlimit (Ex.flags 1 0 ["http://a"])
           ProxyH (Ex.config 1 0 ["http://a"]) (Ex.world 1 0 ["http://a"])).
  - reflexivity.
  - reflexivity.
  - apply after_reachable with (sched := Ex.aborted_forward).
    vm_compute. reflexivity.
  - reflexivity.
Qed.

(** C3 as stated fails. From the initial ticket state with two backends
    the first three requests select the backends 1, 0, 1, not 0, 1, 0.
    Where the counter wraps with three backends (stored value [2^32 - 2],
    first ticket drawn [2^32 - 1]) the selection is 0, 0, 1, which is
    [(T+k) mod 3] neither for the stored value nor for the first ticket. *)
Lemma sequential_selection_counterexample :
  let reqs := [(Ex.GET "/a", ServeReturns); (Ex.GET "/b", ServeReturns);
               (Ex.GET "/c", ServeReturns)] in
  let selected cfg (w : World string) :=
    map proxyIdx_of (selected_sequentially cfg ProxyH reqs w) in
  let claimed (T N : Z) :=
    map (fun k : nat => Some ((T + Z.of_nat k) mod N)) (seq 0 (length reqs)) in
  let cfg2 := Ex.config 10 0 ["http://a"; "http://b"] in
  let w2 := Ex.world 10 0 ["http://a"; "http://b"] in
  let cfg3 := Ex.config 10 0 ["http://a"; "http://b"; "http://c"] in
  let w3 :=
    with_requestNum (2 ^ 32 - 2)
      (Ex.world 10 0 ["http://a"; "http://b"; "http://c"]) in
  (Ex.start (Ex.flags 10 0 ["http://a"; "http://b"]) = Serving ProxyH cfg2 w2
   /\ requestNum (proxyState w2) = 0
   /\ selected cfg2 w2 = [Some 1; Some 0; Some 1]
   /\ selected cfg2 w2 <> claimed (requestNum (proxyState w2)) 2)
  /\ (selected cfg3 w3 = [Some 0; Some 0; Some 1]
      /\ selected cfg3 w3 <> claimed (2 ^ 32 - 2) 3
      /\ selected cfg3 w3 <> claimed (2 ^ 32 - 1) 3).
Proof.
  vm_compute. split_and!; try reflexivity; discriminate.
Qed.

(** [sequential_selection] at work: three backends, four requests from
    the initial ticket state select 1, 2, 0, 1. *)
Lemma sequential_selection_witness :
  let cfg := Ex.config 10 0 ["http://a"; "http://b"; "http://c"] in
  let w := Ex.world 10 0 ["http://a"; "http://b"; "http://c"] in
  let reqs := [(Ex.GET "/a", ServeReturns); (Ex.GET "/b", ServePanics);
               (Ex.GET "/c", ServeReturns); (Ex.GET "/d", ServeReturns)] in
  0 < Z.of_nat (length (proxies (proxyState w))) < 2 ^ 32
  /\ map proxyIdx_of (selected_sequentially cfg ProxyH reqs w)
     = [Some 1; Some 2; Some 0; Some 1].
Proof.
  intros cfg w reqs.
  assert (0 < Z.of_nat (length (proxies (proxyState w))) < 2 ^ 32) as HN
    by (vm_compute; split; reflexivity).
  split; [exact HN|].
  destruct (sequential_selection cfg ProxyH reqs w HN) as [_ Hidx].
  rewrite Hidx; [reflexivity | vm_compute; discriminate | reflexivity ].
Defined.

(** C4 as stated fails: with the backends [http://b0; http://b1] and code
    302 the first request is redirected to the second backend. *)
Lemma redirect_two_backends_counterexample :
  let cfg := Ex.config 10 302 ["http://b0"; "http://b1"] in
  let w0 := Ex.world 10 302 ["http://b0"; "http://b1"] in
  let reqs := [(Ex.GET "/x", ServeReturns); (Ex.GET "/y", ServeReturns);
               (Ex.GET "/z", ServeReturns)] in
  Ex.start (Ex.flags 10 302 ["http://b0"; "http://b1"])
    = Serving RedirectH cfg w0
  /\ trace (serve_sequentially cfg RedirectH reqs w0).1
     <> [EvRedirect ("http://b0" +:+ "/x") 302;
         EvRedirect ("http://b1" +:+ "/y") 302;
         EvRedirect ("http://b0" +:+ "/z") 302].
Proof.
  vm_compute. split; [reflexivity | discriminate].
Qed.

(** [redirect_two_backends] at work. *)
Lemma redirect_two_backends_witness :
  let f := Ex.flags 10 302 ["http://b0"; "http://b1"] in
  flag_version f = false
  /\ flag_Args f = ["http://b0"; "http://b1"]
  /\ flag_redirect f = 302
  /\ is_Some (Ex.parse_any "http://b0")
  /\ is_Some (Ex.parse_any "http://b1")
  /\ exists cfg w0 w,
      Ex.start f = Serving RedirectH cfg w0
      /\ serve_sequentially cfg RedirectH
           [(Ex.GET "/x", ServeReturns); (Ex.GET "/y", ServeReturns);
            (Ex.GET "/z", ServeReturns)] w0
         = (w, [Ret tt; Ret tt; Ret tt])
      /\ trace w = [EvRedirect ("http://b1" +:+ "/x") 302;
                    EvRedirect ("http://b0" +:+ "/y") 302;
                    EvRedirect ("http://b1" +:+ "/z") 302].
Proof.
  intros f.
  assert (is_Some (Ex.parse_any "http://b0")) as H0 by (eexists; reflexivity).
  assert (is_Some (Ex.parse_any "http://b1")) as H1 by (eexists; reflexivity).
  split_and!; [reflexivity | reflexivity | reflexivity | exact H0 | exact H1 |].
  exact (redirect_two_backends Ex.parse_any Ex.rlimit f
           "http://b0" "http://b1" (Ex.GET "/x") (Ex.GET "/y") (Ex.GET "/z")
           ServeReturns ServeReturns ServeReturns
           eq_refl eq_refl eq_refl H0 H1).
Defined.

(** [ticket_once_per_request] at work: the first request after start-up
    with two backends. *)
Lemma ticket_once_per_request_witness :
  let cfg := Ex.config 10 0 ["http://a"; "http://b"] in
  let w := Ex.world 10 0 ["http://a"; "http://b"] in
  let ro := (Ex.GET "/x", ServeReturns) in
  0 < Z.of_nat (length (proxies (proxyState w))) < 2 ^ 32
  /\ requestNum (proxyState (handle cfg ProxyH ro w).1) = 1
  /\ (SelectBackend w).2 = Ret (1, 1)
  /\ trace (handle cfg ProxyH ro w).1
     = [EvAcquire 1; EvServeHTTP 1 (Ex.GET "/x"); EvRelease 1].
Proof.
  intros cfg w ro.
  assert (0 < Z.of_nat (length (proxies (proxyState w))) < 2 ^ 32) as HN
    by (vm_compute; split; reflexivity).
  destruct (ticket_once_per_request cfg ProxyH ro w)
    as (Hticket & _ & _ & Hidx & _).
  destruct (Hidx HN) as [Hsel _].
  split; [exact HN|]. split; [exact Hticket|]. split; [exact Hsel | reflexivity].
Defined.

(** C6 as stated fails: after a [Put] of a one-byte buffer, a [Get] with
    a configured size of four bytes returns that buffer. *)
Lemma pool_buffers_full_size_counterexample :
  BufferPool.run Ex.small_buffers
    [BufferPool.OpPut [Byte.x00]; BufferPool.OpGet (Some 0%nat)]
    BufferPool.NewProxyBufferPool
    = Some ([[Byte.x00]], BufferPool.NewProxyBufferPool)
  /\ ~ Forall (fun buf => poolBufSize Ex.small_buffers
                            <= Z.of_nat (length buf)) [[Byte.x00]].
Proof.
  split; [reflexivity|].
  intros H. apply Forall_cons_1 in H as [H _]. vm_compute in H. by apply H.
Qed.

(** [pool_buffers_full_size] at work. *)
Lemma pool_buffers_full_size_witness :
  let h := [BufferPool.OpGet None; BufferPool.OpPut Ex.four_bytes;
            BufferPool.OpGet (Some 0%nat); BufferPool.OpDrop 0;
            BufferPool.OpGet (Some 0%nat)] in
  0 < poolBufSize Ex.small_buffers
  /\ Forall (BufferPool.put_full_size Ex.small_buffers) h
  /\ exists bufs bufPool',
      BufferPool.run Ex.small_buffers h BufferPool.NewProxyBufferPool
        = Some (bufs, bufPool')
      /\ Forall (fun buf => poolBufSize Ex.small_buffers
                              <= Z.of_nat (length buf)) bufs.
Proof.
  intros h.
  assert (Forall (BufferPool.put_full_size Ex.small_buffers) h) as Hput.
  { repeat constructor. vm_compute. discriminate. }
  split; [reflexivity|]. split; [exact Hput|].
  exact (proj1 (pool_buffers_full_size Ex.small_buffers h eq_refl Hput)).
Defined.



(** [no_backends_no_serving] at work: without a backend the program
    exits with status 1; with two backends the first request selects
    backend 1 of 2. *)
Lemma no_backends_no_serving_witness :
  let f := Ex.flags 10 0 ["http://a"; "http://b"] in
  Z.of_nat (length (flag_Args (Ex.flags 10 0 []))) < uint32_modulus
  /\ Ex.start (Ex.flags 10 0 []) = Exited 1
  /\ Z.of_nat (length (flag_Args f)) < uint32_modulus
  /\ exists idx,
      (SelectBackend (Ex.world 10 0 ["http://a"; "http://b"])).2
        = Ret (1, idx)
      /\ 0 <= idx < 2.
Proof.
  intros f.
  split; [reflexivity|]. split.
  { exact (proj1 (no_backends_no_serving Ex.parse_any Ex.rlimit
                    (Ex.flags 10 0 []) eq_refl) eq_refl). }
  split; [reflexivity|].
  destruct (proj2 (no_backends_no_serving Ex.parse_any Ex.rlimit f eq_refl)
              ProxyH (Ex.config 10 0 ["http://a"; "http://b"])
              (Ex.world 10 0 ["http://a"; "http://b"]) eq_refl)
    as (_ & _ & Hsel).
  destruct (Hsel (Ex.world 10 0 ["http://a"; "http://b"]) eq_refl)
    as (idx & H1 & _ & H3 & _).
  exists idx. split; [exact H1 | exact H3].
Defined.

(** [cap_zero_unlimited] at work: no limiter exists, and three requests
    are forwarded to the one backend at the same time. *)
Lemma cap_zero_unlimited_witness :
  let f := Ex.flags 0 0 ["http://a"] in
  let cfg := Ex.config 0 0 ["http://a"] in
  let w0 := Ex.world 0 0 ["http://a"] in
  Ex.start f = Serving ProxyH cfg w0
  /\ numConnsPerServer cfg = 0
  /\ (connLimiters (proxyState w0) = [] /\ semaphores w0 = [])
  /\ forwards_running 0 (Ex.after 0 ["http://a"] Ex.three_requests ) = 2%nat.
Proof.
  intros f cfg w0.
  split; [reflexivity|]. split; [reflexivity|].
  split; [|reflexivity].
  exact (proj1 (cap_zero_unlimited Ex.parse_any Ex.rlimit f cfg w0
                  eq_refl eq_refl)).
Defined.

(** [nonzero_cap_limits] at work: with a cap of -1 the backend gets a
    semaphore of size -1, and a request that has drawn its ticket has no
    step. *)
Lemma nonzero_cap_limits_witness :
  let f := Ex.flags (-1) 0 ["http://a"] in
  let cfg := Ex.config (-1) 0 ["http://a"] in
  let w0 := Ex.world (-1) 0 ["http://a"] in
  let s := Ex.after (-1) ["http://a"]
             [Accept (Ex.GET "/x"); Step 0 ServeReturns] in
  Ex.start f = Serving ProxyH cfg w0
  /\ numConnsPerServer cfg <> 0
  /\ semaphores w0 = [semaphore.NewWeighted (-1)]
  /\ tasks s !! 0%nat = Some (pcSelected (Ex.GET "/x") 1 0)
  /\ task_step cfg 0 ServeReturns s = None.
Proof.
  intros f cfg w0 s.
  assert (numConnsPerServer cfg <> 0) as Hcap by (vm_compute; discriminate).
  assert (numConnsPerServer cfg < 0) as Hneg by reflexivity.
  assert (reachable cfg w0 s) as Hr.
  { apply after_reachable
      with (sched := [Accept (Ex.GET "/x"); Step 0 ServeReturns]).
    vm_compute. reflexivity. }
  assert (tasks s !! 0%nat = Some (pcSelected (Ex.GET "/x") 1 0)) as Ht
    by reflexivity.
  destruct (nonzero_cap_limits Ex.parse_any Ex.rlimit f cfg w0 eq_refl Hcap)
    as ((_ & Hsem) & _ & Hblock).
  split_and!; [reflexivity | exact Hcap | exact Hsem | exact Ht |].
  exact (proj2 (Hblock Hneg s Hr) 0%nat (Ex.GET "/x") 1 0 ServeReturns Ht).
Defined.

(* ===================================================================== *)
(** * The further theorems at concrete inputs *)

(** [startup_outcome] at work: told to listen on port 70000, the process
    gets through start-up and then exits with status 1; on the default
    port it serves, through the proxy handler. *)
Lemma startup_outcome_witness :
  let f := Ex.flags 10 0 ["http://a"] in
  let f70000 :=
    {| flag_version := false; flag_verbose := false; flag_port := 70000;
       flag_bufsize := 128 * 1024; flag_maxconns := 10; flag_redirect := 0;
       flag_fdlimit := 0; flag_Args := ["http://a"] |} in
  Ex.listen 70000 = ListenReturns
  /\ Ex.listen 8080 = ListenServes
  /\ main_ListenAndServe Ex.parse_any Ex.rlimit Ex.listen f70000 = Exit 1
  /\ main_ListenAndServe Ex.parse_any Ex.rlimit Ex.listen f
     = ServesOn ProxyH (Ex.config 10 0 ["http://a"])
         (Ex.world 10 0 ["http://a"]).
Proof.
  intros f f70000.
  assert (Forall (fun a => is_Some (Ex.parse_any a)) ["http://a"]) as Hparse
    by (repeat constructor; by eexists).
  destruct (startup_outcome Ex.parse_any Ex.rlimit Ex.listen f70000)
    as (_ & Hexit & _).
  split; [reflexivity|]. split; [reflexivity|]. split.
  - apply Hexit. split; [reflexivity|]. right. split; [exact Hparse|].
    reflexivity.
  - reflexivity.
Defined.

(** [proxies_setup] at work: the second of two backends. *)
Lemma proxies_setup_witness :
  let f := Ex.flags 10 0 ["http://a"; "http://b"] in
  let cfg := Ex.config 10 0 ["http://a"; "http://b"] in
  let w0 := Ex.world 10 0 ["http://a"; "http://b"] in
  Ex.start f = Serving ProxyH cfg w0
  /\ flag_Args f !! 1%nat = Some "http://b"
  /\ exists u,
      Ex.parse_any "http://b" = Some u
      /\ proxies (proxyState w0) !! 1%nat
         = Some {| target := u; FlushInterval := -1;
                   BufferPool := if decide (0 < flag_bufsize f)
                                 then Some 1%nat else None |}
      /\ proxyStrings cfg !! 1%nat = Some "http://b".
Proof.
  intros f cfg w0. split; [reflexivity|]. split; [reflexivity|].
  exact (proxies_setup Ex.parse_any Ex.rlimit f ProxyH cfg w0 1%nat
           "http://b" eq_refl eq_refl).
Defined.

(** [Setrlimit_only_raises] at work: 2048 descriptors asked for, 1024
    current, 4096 allowed. *)
Lemma Setrlimit_only_raises_witness :
  let f := {| flag_version := false; flag_verbose := false;
              flag_port := 8080; flag_bufsize := 128 * 1024;
              flag_maxconns := 10; flag_redirect := 0;
              flag_fdlimit := 2048; flag_Args := ["http://a"] |} in
  let r := {| Cur := 2048; Max := 4096 |} in
  ParseArguments_Setrlimit Ex.rlimit f = Some r
  /\ Cur Ex.rlimit < Cur r <= Max r
  /\ Max r = Max Ex.rlimit.
Proof.
  intros f r.
  assert (ParseArguments_Setrlimit Ex.rlimit f = Some r) as Hcall
    by reflexivity.
  split; [exact Hcall|].
  destruct (Setrlimit_only_raises Ex.rlimit f r Hcall)
    as (_ & Hraise & Hmax & _).
  split; [exact Hraise | exact Hmax].
Defined.

(** [Setrlimit_skipped] at work: a failed [Getrlimit]. *)
Lemma Setrlimit_skipped_witness :
  let failed := {| Cur := 0; Max := 0 |} in
  let cfg := Ex.config 10 0 ["http://a"] in
  Cur failed = 0 /\ Max failed = 0 /\ 0 <= fdLimit cfg
  /\ SetOpenFilesLimit_Setrlimit failed cfg = None
  /\ fdLimit (SetOpenFilesLimit failed cfg) = 0.
Proof.
  intros failed cfg.
  assert (0 <= fdLimit cfg) as Hfd by (vm_compute; discriminate).
  split; [reflexivity|]. split; [reflexivity|]. split; [exact Hfd|].
  exact (proj2 (Setrlimit_skipped failed cfg) eq_refl eq_refl Hfd).
Defined.

(** [forward_round_trip] at work: the first request after start-up. *)
Lemma forward_round_trip_witness :
  let f := Ex.flags 1 0 ["http://a"; "http://b"] in
  let cfg := Ex.config 1 0 ["http://a"; "http://b"] in
  let w0 := Ex.world 1 0 ["http://a"; "http://b"] in
  Ex.start f = Serving ProxyH cfg w0
  /\ numConnsPerServer cfg <> 0
  /\ Z.of_nat (length (flag_Args f)) < 2 ^ 32
  /\ semaphores w0 !! 1%nat = Some (semaphore.NewWeighted 1)
  /\ ProxyRequestHandler cfg ServeReturns (Ex.GET "/x") w0
     = ({| proxyState := proxyState (with_requestNum 1 w0);
           semaphores := semaphores w0;
           trace := trace w0
                    ++ [EvAcquire 1; EvServeHTTP 1 (Ex.GET "/x");
                        EvRelease 1] |},
        Ret tt).
Proof.
  intros f cfg w0.
  assert (numConnsPerServer cfg <> 0) as Hcap by (vm_compute; discriminate).
  assert (0 <= semaphore.cur (semaphore.NewWeighted 1)) as Hheld
    by (vm_compute; discriminate).
  assert (1 <= semaphore.size (semaphore.NewWeighted 1)
               - semaphore.cur (semaphore.NewWeighted 1)) as Hfree
    by (vm_compute; discriminate).
  split; [reflexivity|]. split; [exact Hcap|]. split; [reflexivity|].
  split; [reflexivity|].
  exact (forward_round_trip Ex.parse_any Ex.rlimit f cfg w0 w0 (Ex.GET "/x")
           (semaphore.NewWeighted 1) eq_refl Hcap eq_refl eq_refl eq_refl
           eq_refl Hheld Hfree).
Defined.

(** [sequential_forwards_return] at work: three requests, one backend,
    one connection. *)
Lemma sequential_forwards_return_witness :
  let f := Ex.flags 1 0 ["http://a"] in
  let cfg := Ex.config 1 0 ["http://a"] in
  let w0 := Ex.world 1 0 ["http://a"] in
  let reqs := [(Ex.GET "/a", ServeReturns); (Ex.GET "/b", ServeReturns);
               (Ex.GET "/c", ServeReturns)] in
  Ex.start f = Serving ProxyH cfg w0
  /\ 0 <= numConnsPerServer cfg
  /\ Z.of_nat (length (flag_Args f)) < 2 ^ 32
  /\ Forall (fun ro : Request * serve_outcome => ro.2 = ServeReturns) reqs
  /\ (serve_sequentially cfg ProxyH reqs w0).2 = [Ret tt; Ret tt; Ret tt]
  /\ semaphores (serve_sequentially cfg ProxyH reqs w0).1 = semaphores w0.
Proof.
  intros f cfg w0 reqs.
  assert (0 <= numConnsPerServer cfg) as Hcap by (vm_compute; discriminate).
  assert (Forall (fun ro : Request * serve_outcome => ro.2 = ServeReturns)
            reqs) as Hret by (repeat constructor).
  split; [reflexivity|]. split; [exact Hcap|]. split; [reflexivity|].
  split; [exact Hret|].
  exact (sequential_forwards_return Ex.parse_any Ex.rlimit f cfg w0 reqs
           eq_refl Hcap eq_refl Hret).
Defined.


(** [abort_only_by_forward_panic] at work: the forward of the one
    request is aborted. *)
Lemma abort_only_by_forward_panic_witness :
  let f := Ex.flags 1 0 ["http://a"] in
  let cfg := Ex.config 1 0 ["http://a"] in
  let w0 := Ex.world 1 0 ["http://a"] in
  let s := Ex.after 1 ["http://a"]
             [Accept (Ex.GET "/x"); Step 0 ServeReturns;
              Step 0 ServeReturns] in
  let s' := Ex.after 1 ["http://a"]
              [Accept (Ex.GET "/x"); Step 0 ServeReturns;
               Step 0 ServeReturns; Step 0 ServePanics] in
  Ex.start f = Serving ProxyH cfg w0
  /\ Z.of_nat (length (flag_Args f)) < 2 ^ 32
  /\ task_step cfg 0 ServePanics s = Some s'
  /\ tasks s' !! 0%nat = Some pcAborted
  /\ exists r n i limiter,
      tasks s !! 0%nat = Some (pcForwarding r n i limiter).
Proof.
  intros f cfg w0 s s'.
  assert (reachable cfg w0 s) as Hr.
  { apply after_reachable
      with (sched := [Accept (Ex.GET "/x"); Step 0 ServeReturns;
                      Step 0 ServeReturns]).
    vm_compute. reflexivity. }
  assert (task_step cfg 0 ServePanics s = Some s') as Hstep
    by (vm_compute; reflexivity).
  assert (tasks s' !! 0%nat = Some pcAborted) as Habort by reflexivity.
  split; [reflexivity|]. split; [reflexivity|]. split; [exact Hstep|].
  split; [exact Habort|].
  exact (proj2 (abort_only_by_forward_panic Ex.parse_any Ex.rlimit f cfg w0
                  s s' 0%nat ServePanics eq_refl eq_refl Hr Hstep Habort)).
Defined.

(** [waiting_has_running_holder] at work: the third of three requests
    waits for the one permit of backend 1, which the first request
    holds. *)
Lemma waiting_has_running_holder_witness :
  let args := ["http://a"; "http://b"] in
  let f := Ex.flags 1 0 args in
  let cfg := Ex.config 1 0 args in
  let w0 := Ex.world 1 0 args in
  let s := Ex.after 1 args Ex.three_requests in
  Ex.start f = Serving ProxyH cfg w0
  /\ 0 < numConnsPerServer cfg
  /\ Z.of_nat (length (flag_Args f)) < 2 ^ 32
  /\ tasks s !! 2%nat = Some (pcSelected (Ex.GET "/c") 3 1)
  /\ task_step cfg 2 ServeReturns s = None
  /\ leaked (Z.to_nat 1) s = 0
  /\ exists t' p',
      tasks s !! t' = Some p'
      /\ holds_permit (Z.to_nat 1) p' = true
      /\ forall o', is_Some (task_step cfg t' o' s).
Proof.
  intros args f cfg w0 s.
  assert (reachable cfg w0 s) as Hr.
  { apply after_reachable with (sched := Ex.three_requests).
    vm_compute. reflexivity. }
  assert (tasks s !! 2%nat = Some (pcSelected (Ex.GET "/c") 3 1)) as Ht
    by reflexivity.
  assert (task_step cfg 2 ServeReturns s = None) as Hstuck
    by (vm_compute; reflexivity).
  assert (leaked (Z.to_nat 1) s = 0) as Hleak by (vm_compute; reflexivity).
  split; [reflexivity|]. split; [reflexivity|]. split; [reflexivity|].
  split; [exact Ht|]. split; [exact Hstuck|]. split; [exact Hleak|].
  exact (waiting_has_running_holder Ex.parse_any Ex.rlimit f cfg w0 s
           2%nat ServeReturns (Ex.GET "/c") 3 1
           eq_refl eq_refl eq_refl Hr Ht Hstuck Hleak).
Defined.

(** [no_leak_without_panic] at work: two permits counted, two held. *)
Lemma no_leak_without_panic_witness :
  let args := ["http://a"; "http://b"] in
  let f := Ex.flags 1 0 args in
  let cfg := Ex.config 1 0 args in
  let w0 := Ex.world 1 0 args in
  let s := Ex.after 1 args Ex.three_requests in
  let sem := {| semaphore.size := 1; semaphore.cur := 1 |} in
  Ex.start f = Serving ProxyH cfg w0
  /\ numConnsPerServer cfg <> 0
  /\ Z.of_nat (length (flag_Args f)) < 2 ^ 32
  /\ Forall forward_returns Ex.three_requests
  /\ run cfg Ex.three_requests (serving w0) = Some s
  /\ semaphores (world s) !! 1%nat = Some sem
  /\ semaphore.cur sem = Z.of_nat (permits_held 1 s).
Proof.
  intros args f cfg w0 s sem.
  assert (numConnsPerServer cfg <> 0) as Hcap by (vm_compute; discriminate).
  assert (Forall forward_returns Ex.three_requests) as Hret
    by (repeat constructor).
  assert (run cfg Ex.three_requests (serving w0) = Some s) as Hrun
    by (vm_compute; reflexivity).
  split; [reflexivity|]. split; [exact Hcap|]. split; [reflexivity|].
  split; [exact Hret|]. split; [exact Hrun|]. split; [reflexivity|].
  exact (no_leak_without_panic Ex.parse_any Ex.rlimit f cfg w0
           Ex.three_requests s 1%nat sem eq_refl Hcap eq_refl Hret Hrun
           eq_refl).
Defined.

(** [tickets_distinct] at work: three requests, three tickets. *)
Lemma tickets_distinct_witness :
  let args := ["http://a"; "http://b"] in
  let f := Ex.flags 1 0 args in
  let cfg := Ex.config 1 0 args in
  let w0 := Ex.world 1 0 args in
  let s := Ex.after 1 args Ex.three_requests in
  Ex.start f = Serving ProxyH cfg w0
  /\ Z.of_nat (length (tasks s)) < 2 ^ 32
  /\ requestNum (proxyState (world s)) = 3
  /\ map ticket_of (tasks s) = [Some 1; Some 2; Some 3].
Proof.
  intros args f cfg w0 s.
  assert (reachable cfg w0 s) as Hr.
  { apply after_reachable with (sched := Ex.three_requests).
    vm_compute. reflexivity. }
  split; [reflexivity|]. split; [reflexivity|].
  split; [|reflexivity].
  destruct (tickets_distinct Ex.parse_any Ex.rlimit f cfg w0 s
              eq_refl Hr eq_refl) as (Hcount & _).
  rewrite Hcount. reflexivity.
Defined.

(** [backend_from_ticket] at work: ticket 3 of two backends. *)
Lemma backend_from_ticket_witness :
  let args := ["http://a"; "http://b"] in
  let f := Ex.flags 1 0 args in
  let cfg := Ex.config 1 0 args in
  let w0 := Ex.world 1 0 args in
  let s := Ex.after 1 args Ex.three_requests in
  let p := pcSelected (Ex.GET "/c") 3 1 in
  Ex.start f = Serving ProxyH cfg w0
  /\ Z.of_nat (length (flag_Args f)) < 2 ^ 32
  /\ tasks s !! 2%nat = Some p
  /\ ticket_of p = Some 3
  /\ backend_of p = Some 1
  /\ 1 = 3 mod Z.of_nat (length (flag_Args f))
  /\ 0 <= 1 < Z.of_nat (length (flag_Args f)).
Proof.
  intros args f cfg w0 s p.
  assert (reachable cfg w0 s) as Hr.
  { apply after_reachable with (sched := Ex.three_requests).
    vm_compute. reflexivity. }
  split; [reflexivity|]. split; [reflexivity|]. split; [reflexivity|].
  split; [reflexivity|]. split; [reflexivity|].
  exact (backend_from_ticket Ex.parse_any Ex.rlimit f cfg w0 s 2%nat p 3 1
           eq_refl eq_refl Hr eq_refl eq_refl eq_refl).
Defined.

(** [pool_buffers_provenance] at work. *)
Lemma pool_buffers_provenance_witness :
  let h := [BufferPool.OpGet None; BufferPool.OpPut Ex.four_bytes;
            BufferPool.OpGet (Some 0%nat)] in
  let fresh := replicate (Z.to_nat (poolBufSize Ex.small_buffers))
                 Byte.x00 in
  BufferPool.run Ex.small_buffers h BufferPool.NewProxyBufferPool
    = Some ([fresh; Ex.four_bytes], BufferPool.NewProxyBufferPool)
  /\ Forall (fun buf => buf = fresh \/ buf ∈ BufferPool.puts h)
       [fresh; Ex.four_bytes].
Proof.
  intros h fresh.
  assert (BufferPool.run Ex.small_buffers h BufferPool.NewProxyBufferPool
          = Some ([fresh; Ex.four_bytes], BufferPool.NewProxyBufferPool))
    as Hrun by reflexivity.
  split; [exact Hrun|].
  exact (proj1 (pool_buffers_provenance Ex.small_buffers h _ _ Hrun)).
Defined.

(** [pool_accounting] at work: three buffers handed out, one of them a
    buffer put before; without the verbose flag the counter stays 0, with
    it the counter is 2. *)
Lemma pool_accounting_witness :
  let h := [BufferPool.OpGet None; BufferPool.OpPut Ex.four_bytes;
            BufferPool.OpGet (Some 0%nat); BufferPool.OpGet None] in
  let verbose :=
    {| beVerbose := true; showVersion := false; listenPort := 8080;
       proxyStrings := ["http://a"]; poolBufSize := 4;
       numConnsPerServer := 10; redirectCode := 0; fdLimit := 0 |} in
  Z.of_nat (length h) < 2 ^ 32
  /\ (exists bufs bufPool',
        BufferPool.run Ex.small_buffers h BufferPool.NewProxyBufferPool
          = Some (bufs, bufPool')
        /\ beVerbose Ex.small_buffers = false
        /\ BufferPool.bufAllocNum bufPool' = 0)
  /\ (exists bufs bufPool',
        BufferPool.run verbose h BufferPool.NewProxyBufferPool
          = Some (bufs, bufPool')
        /\ beVerbose verbose = true
        /\ BufferPool.bufAllocNum bufPool' = 2
        /\ 0 <= BufferPool.bufAllocNum bufPool' <= Z.of_nat (length bufs)
        /\ Z.of_nat (length bufs)
           + Z.of_nat (length (BufferPool.pool bufPool'))
           <= BufferPool.bufAllocNum bufPool'
              + Z.of_nat (length (BufferPool.puts h))).
Proof.
  intros h verbose. split; [reflexivity|]. split.
  - eexists _, _. split; [reflexivity|]. split; [reflexivity|].
    exact (proj1 (pool_accounting Ex.small_buffers h _ _ eq_refl eq_refl)
             eq_refl).
  - eexists _, _. split; [reflexivity|]. split; [reflexivity|].
    split; [reflexivity|].
    exact (proj2 (pool_accounting verbose h _ _ eq_refl eq_refl) eq_refl).
Defined.
